(** * Secret Santa draw: the derangement generator and its validator

    A shallow embedding of [utils/derangement.ts] (functions [shuffle],
    [isDerangement], [generateDerangement] and [validateAssignments]) and
    the properties of the draw that the application relies on.

    Layout:
    - the records of [types/index.ts];
    - [Runtime]: the ambient effects the functions use, [Math.random] and
      the console, as explicit state;
    - [Derangement]: the four functions, typed as in the TypeScript source;
    - [Dynamic]: [validateAssignments] run on values decoded from JSON,
      which is what the store feeds it on load;
    - [Storage] and [Store]: [utils/storage.ts] and the actions of
      [store/useSecretSantaStore.ts], the callers of the two functions;
    - the vocabulary of the statements;
    - lemmas on each function, then the properties C1 to C10, then
      further properties of the same functions and of the store (X1 to
      X22). *)

From stdpp Require Import base decidable option list sets gmap strings pretty.

Open Scope string_scope.
Open Scope list_scope.

(** ** Types (types/index.ts) *)

Record Participant := mkParticipant { id : string; name : string }.

Record Assignment := mkAssignment { giverId : string; receiverId : string }.

Global Instance Participant_eq_dec : EqDecision Participant.
Proof. solve_decision. Defined.

Global Instance Assignment_eq_dec : EqDecision Assignment.
Proof. solve_decision. Defined.

(** ** Runtime: randomness and console as explicit state *)

Module Runtime.

(** One line written to the console, with the method that wrote it. *)
Inductive ConsoleEntry :=
| console_log_entry (text : string)
| console_error_entry (text : string).

(** The part of the world the generator touches.  [Math.random()] is an
    endless supply of draws: [entropy k] is the k-th draw ever made and
    [cursor] counts the draws made so far.  [console] holds the lines
    written so far, oldest first. *)
Record World := mkWorld {
  entropy : nat -> nat;
  cursor : nat;
  console : list ConsoleEntry
}.

(** Computations that read draws and write to the console. *)
Definition M (A : Type) : Type := World -> A * World.

Definition ret {A} (a : A) : M A := fun w => (a, w).

Definition bind {A B} (m : M A) (k : A -> M B) : M B :=
  fun w => let (a, w') := m w in k a w'.

(** [Math.floor(Math.random() * n)].  [Math.random()] lies in [0, 1), so
    the result is an index below [n]; the draw is kept as a natural
    number and reduced modulo [n], so that every tape gives an index in
    range and every index in range is given by some tape. *)
Definition random_below (n : nat) : M nat :=
  fun w => (entropy w (cursor w) mod n,
            mkWorld (entropy w) (S (cursor w)) (console w)).

Definition console_log (text : string) : M unit :=
  fun w => (tt, mkWorld (entropy w) (cursor w)
                        (console w ++ [console_log_entry text])).

Definition console_error (text : string) : M unit :=
  fun w => (tt, mkWorld (entropy w) (cursor w)
                        (console w ++ [console_error_entry text])).

End Runtime.

Import Runtime.

Notation "'let*' x ':=' c1 'in' c2" := (bind c1 (fun x => c2))
  (at level 10, x name, c1 at level 100, c2 at level 200,
   format "'[v' 'let*'  x  ':='  c1  'in' '/' c2 ']'").
Notation "c1 ';;' c2" := (bind c1 (fun _ => c2))
  (at level 100, c2 at level 200, right associativity).

(** ** utils/derangement.ts *)

Module Derangement.

Section Shuffle.
Context {T : Type}.

(** [[result[i], result[j]] = [result[j], result[i]]]: both reads happen
    before both writes.  [shuffle] only calls it with [j <= i < length],
    see [shuffle_loop]; outside the array nothing is done here. *)
Definition swap (i j : nat) (result : list T) : list T :=
  match result !! i, result !! j with
  | Some ri, Some rj => <[j := ri]> (<[i := rj]> result)
  | _, _ => result
  end.

(** [for (let i = ...; i > 0; i--) { j = floor(random() * (i + 1)); swap }] *)
Fixpoint shuffle_loop (i : nat) (result : list T) : M (list T) :=
  match i with
  | 0 => ret result
  | S i' =>
      let* j := random_below (i + 1) in
      shuffle_loop i' (swap i j result)
  end.

(** [shuffle]: works on a copy, from the last index down to 1. *)
Definition shuffle (array : list T) : M (list T) :=
  let result := array in
  shuffle_loop (length result - 1) result.
End Shuffle.

(** [original[i] === shuffled[i]] on strings; past the end of [shuffled]
    the read gives [undefined], which is never [===] to a string. *)
Definition same_at (original shuffled : list string) (i : nat) : bool :=
  match original !! i, shuffled !! i with
  | Some o, Some s => bool_decide (o = s)
  | None, None => true
  | _, _ => false
  end.

(** [for (let i = 0; i < original.length; i++)], with [i] the current index
    and [todo] the number of indices left. *)
Fixpoint isDerangement_loop (original shuffled : list string)
         (i todo : nat) : bool :=
  match todo with
  | 0 => true
  | S todo' =>
      if same_at original shuffled i then false
      else isDerangement_loop original shuffled (S i) todo'
  end.

Definition isDerangement (original shuffled : list string) : bool :=
  isDerangement_loop original shuffled 0 (length original).

(** [ids.map((giverId, index) => ({giverId, receiverId: shuffledIds[index]}))].
    [shuffledIds] is as long as [ids] (lemma [shuffle_length]); an index
    past its end, where JavaScript reads [undefined], has no typed
    counterpart and is given the empty string. *)
Definition pair_up (ids shuffledIds : list string) : list Assignment :=
  imap (fun index giverId =>
          mkAssignment giverId (default "" (shuffledIds !! index))) ids.

(** The attempt loop of [generateDerangement]: [attempt] is the loop
    counter and [todo] is [maxAttempts - attempt]. *)
Fixpoint attempt_loop (ids : list string) (attempt todo : nat)
  : M (option (list Assignment)) :=
  match todo with
  | 0 => ret None
  | S todo' =>
      let* shuffledIds := shuffle ids in
      if isDerangement ids shuffledIds then
        let assignments := pair_up ids shuffledIds in
        console_log ("Derangement generated successfully in "
                       +:+ pretty (attempt + 1) +:+ " attempts") ;;
        ret (Some assignments)
      else attempt_loop ids (S attempt) todo'
    end.

(** [generateDerangement]; [None] is the [null] of the source. *)
Definition generateDerangement (participants : list Participant)
           (maxAttempts : nat) : M (option (list Assignment)) :=
  if bool_decide (length participants < 2) then
    console_error "Need at least 2 participants for Secret Santa" ;;
    ret None
  else
    let ids := id <$> participants in
    let* found := attempt_loop ids 0 maxAttempts in
    match found with
    | Some assignments => ret (Some assignments)
    | None =>
        console_error ("Failed to generate derangement after "
                         +:+ pretty maxAttempts +:+ " attempts") ;;
        ret None
    end.

(** The default of the optional parameter. *)
Definition defaultMaxAttempts : nat := 1000.

(** The [for (const assignment of assignments)] loop of
    [validateAssignments], with the two sets built so far.  [None] is an
    early [return false]; [Some] hands the sets to the final check. *)
Fixpoint validate_loop (participantIds giverIds receiverIds : gset string)
         (assignments : list Assignment)
  : option (gset string * gset string) :=
  match assignments with
  | [] => Some (giverIds, receiverIds)
  | assignment :: rest =>
      if negb (bool_decide (giverId assignment ∈ participantIds))
         || negb (bool_decide (receiverId assignment ∈ participantIds))
      then None
      else if bool_decide (giverId assignment = receiverId assignment)
      then None
      else if bool_decide (giverId assignment ∈ giverIds)
              || bool_decide (receiverId assignment ∈ receiverIds)
      then None
      else validate_loop participantIds
                         ({[giverId assignment]} ∪ giverIds)
                         ({[receiverId assignment]} ∪ receiverIds)
                         rest
  end.

Definition validateAssignments (participants : list Participant)
           (assignments : list Assignment) : bool :=
  if negb (bool_decide (length assignments = length participants)) then false
  else
    let participantIds : gset string := list_to_set (id <$> participants) in
    match validate_loop participantIds ∅ ∅ assignments with
    | None => false
    | Some (giverIds, receiverIds) =>
        bool_decide (size giverIds = length participants)
        && bool_decide (size receiverIds = length participants)
    end.

End Derangement.

Import Derangement.

(** ** [validateAssignments] on decoded data

    The store hands [validateAssignments] whatever [JSON.parse] made of the
    persisted record, so at run time its arguments are arbitrary decoded
    values, not necessarily of the declared types.  This module runs the
    same function body on such values. *)

Module Dynamic.

#[local] Set Warnings "-register-all".

(** A value as [JSON.parse] builds it, and [undefined], which reading a
    missing property gives.  A number stands for itself; the validator only
    compares numbers for identity, and integers are enough for the lengths,
    sizes and stray numbers it can meet.  Arrays and objects are the nodes
    of the decoded tree. *)
Inductive JSValue :=
| JUndefined
| JNull
| JBoolean (b : bool)
| JNumber (n : Z)
| JString (s : string)
| JArray (items : list JSValue)
| JObject (fields : list (string * JSValue)).

(** How an evaluation ends: with a value, or with a thrown [TypeError]
    (the only exception this function body can raise). *)
Inductive Completion (A : Type) :=
| Normal (a : A)
| ThrowTypeError.

Arguments Normal {A} a.
Arguments ThrowTypeError {A}.

Definition and_then {A B} (c : Completion A) (k : A -> Completion B)
  : Completion B :=
  match c with
  | Normal a => k a
  | ThrowTypeError => ThrowTypeError
  end.

Notation "'do*' x ':=' c1 'in' c2" := (and_then c1 (fun x => c2))
  (at level 10, x name, c1 at level 100, c2 at level 200,
   format "'[v' 'do*'  x  ':='  c1  'in' '/' c2 ']'").

(** The property names the function body reads. *)
Inductive Key := key_length | key_id | key_giverId | key_receiverId.

Definition key_name (k : Key) : string :=
  match k with
  | key_length => "length"
  | key_id => "id"
  | key_giverId => "giverId"
  | key_receiverId => "receiverId"
  end.

(** An own property of a decoded object; [undefined] when it has none of
    that name. *)
Fixpoint own_property (fields : list (string * JSValue)) (name : string)
  : JSValue :=
  match fields with
  | [] => JUndefined
  | (n, v) :: rest =>
      if bool_decide (n = name) then v else own_property rest name
  end.

(** [v.k] for one of the four names: reading a property of [null] or
    [undefined] throws; booleans and numbers have none of these
    properties; strings and arrays have [length] only. *)
Definition get (v : JSValue) (k : Key) : Completion JSValue :=
  match v with
  | JUndefined | JNull => ThrowTypeError
  | JBoolean _ | JNumber _ => Normal JUndefined
  | JString s =>
      match k with
      | key_length => Normal (JNumber (Z.of_nat (String.length s)))
      | _ => Normal JUndefined
      end
  | JArray items =>
      match k with
      | key_length => Normal (JNumber (Z.of_nat (length items)))
      | _ => Normal JUndefined
      end
  | JObject fields => Normal (own_property fields (key_name k))
  end.

(** [a === b].  Two arrays or objects are equal only when they are the
    same node; the function body never compares a node with itself (it
    compares an [id] with a [giverId] or [receiverId], the two fields of
    one assignment, or fields of different assignments). *)
Definition strict_equal (a b : JSValue) : bool :=
  match a, b with
  | JUndefined, JUndefined => true
  | JNull, JNull => true
  | JBoolean x, JBoolean y => bool_decide (x = y)
  | JNumber x, JNumber y => bool_decide (x = y)
  | JString x, JString y => bool_decide (x = y)
  | _, _ => false
  end.

(** A [Set]: its members in insertion order.  Membership is by
    SameValueZero, which is [===] on decoded values (they hold no NaN). *)
Definition JSSet : Type := list JSValue.

Definition Set_has (s : JSSet) (v : JSValue) : bool :=
  existsb (strict_equal v) s.

Definition Set_add (s : JSSet) (v : JSValue) : JSSet :=
  if Set_has s v then s else s ++ [v].

Definition Set_size (s : JSSet) : JSValue :=
  JNumber (Z.of_nat (length s)).

Definition new_Set (items : list JSValue) : JSSet :=
  foldl Set_add [] items.

(** The callback [p => p.id] over the elements of an array. *)
Fixpoint map_id (items : list JSValue) : Completion (list JSValue) :=
  match items with
  | [] => Normal []
  | p :: rest =>
      do* v := get p key_id in
      do* vs := map_id rest in
      Normal (v :: vs)
  end.

(** [participants.map(p => p.id)]: only an array has a callable [map];
    on anything else the call throws. *)
Definition call_map_id (participants : JSValue)
  : Completion (list JSValue) :=
  match participants with
  | JArray items => map_id items
  | _ => ThrowTypeError
  end.

(** What [for ... of] runs over: the elements of an array, the characters
    of a string; other values are not iterable. *)
Definition iterate (v : JSValue) : Completion (list JSValue) :=
  match v with
  | JArray items => Normal items
  | JString s =>
      Normal ((fun c => JString (String c EmptyString))
                <$> String.list_ascii_of_string s)
  | _ => ThrowTypeError
  end.

(** The loop body, one assignment at a time.  [||] evaluates its right
    operand only when the left one is false, so [receiverId] is read after
    the giver passed the membership test.  Reading the same property again
    gives the same value, so each is read once here. *)
Fixpoint validate_loop (participantIds giverIds receiverIds : JSSet)
         (items : list JSValue) : Completion (option (JSSet * JSSet)) :=
  match items with
  | [] => Normal (Some (giverIds, receiverIds))
  | assignment :: rest =>
      do* g := get assignment key_giverId in
      if negb (Set_has participantIds g) then Normal None
      else
        do* r := get assignment key_receiverId in
        if negb (Set_has participantIds r) then Normal None
        else if strict_equal g r then Normal None
        else if Set_has giverIds g || Set_has receiverIds r then Normal None
        else validate_loop participantIds
                           (Set_add giverIds g) (Set_add receiverIds r) rest
  end.

Definition validateAssignments (participants assignments : JSValue)
  : Completion JSValue :=
  do* assignments_length := get assignments key_length in
  do* participants_length := get participants key_length in
  if negb (strict_equal assignments_length participants_length)
  then Normal (JBoolean false)
  else
    do* ids := call_map_id participants in
    let participantIds := new_Set ids in
    do* items := iterate assignments in
    do* sets := validate_loop participantIds [] [] items in
    match sets with
    | None => Normal (JBoolean false)
    | Some (giverIds, receiverIds) =>
        Normal (JBoolean
                  (strict_equal (Set_size giverIds) participants_length
                   && strict_equal (Set_size receiverIds) participants_length))
    end.

(** The decoded form of well-typed data. *)
Definition of_participant (p : Participant) : JSValue :=
  JObject [("id", JString (id p)); ("name", JString (name p))].

Definition of_assignment (a : Assignment) : JSValue :=
  JObject [("giverId", JString (giverId a));
           ("receiverId", JString (receiverId a))].

End Dynamic.

(** ** utils/storage.ts

    [localStorage] is modelled at the level of what its records mean: an
    item is absent or is the JSON text of a value of the type that
    [saveState] writes under that key, and the text is identified with the
    value ([JSON.parse] undoes [JSON.stringify] on such data).  Writes are
    taken to succeed.  The [catch] branches of the three functions, which
    need a failing browser call or a hand-edited record that is not JSON,
    are therefore outside this model. *)

Module Storage.

(** The five records, named after the keys of [STORAGE_KEYS]. *)
Record LocalStorage := mkLocalStorage {
  secretsanta_participants : option (list Participant);
  secretsanta_assignments : option (list Assignment);
  secretsanta_revealed : option (list string);
  secretsanta_draw_complete : option bool;
  secretsanta_sound : option bool
}.

(** [interface StoredState]. *)
Record StoredState := mkStoredState {
  participants : list Participant;
  assignments : list Assignment;
  revealedParticipants : list string;
  isDrawComplete : bool;
  soundEnabled : bool
}.

(** [saveState]: five [setItem] calls.  [[...state.revealedParticipants]]
    lists the members of the set; the store only ever asks a set whether it
    has a member, and the order of the array is not tracked. *)
Definition saveState (participants : list Participant)
           (assignments : list Assignment)
           (revealedParticipants : gset string)
           (isDrawComplete soundEnabled : bool)
           (localStorage : LocalStorage) : LocalStorage :=
  mkLocalStorage (Some participants)
                 (Some assignments)
                 (Some (elements revealedParticipants))
                 (Some isDrawComplete)
                 (Some soundEnabled).

(** [loadState]: [null] without a participants record; every other
    missing record has a default. *)
Definition loadState (localStorage : LocalStorage) : option StoredState :=
  match secretsanta_participants localStorage with
  | None => None
  | Some participants =>
      let assignments :=
        default [] (secretsanta_assignments localStorage) in
      let revealedParticipants :=
        default [] (secretsanta_revealed localStorage) in
      let isDrawComplete :=
        default false (secretsanta_draw_complete localStorage) in
      let soundEnabled :=
        default true (secretsanta_sound localStorage) in
      Some (mkStoredState participants assignments revealedParticipants
                          isDrawComplete soundEnabled)
  end.

(** [clearState]: [removeItem] for every key. *)
Definition clearState (localStorage : LocalStorage) : LocalStorage :=
  mkLocalStorage None None None None None.

End Storage.

(** ** store/useSecretSantaStore.ts *)

Module Store.

Inductive Screen := setup | select | spin | reveal.

(** [interface AppState]. *)
Record AppState := mkAppState {
  participants : list Participant;
  assignments : list Assignment;
  revealedParticipants : gset string;
  isDrawComplete : bool;
  currentScreen : Screen;
  selectedParticipant : option Participant;
  soundEnabled : bool
}.

(** What the actions reach outside the store: the draws and console of
    the generator, the lines given to [console.warn], and the browser's
    storage. *)
Record Env := mkEnv {
  world : World;
  warned : list string;
  localStorage : Storage.LocalStorage
}.

Definition console_warn (text : string) (env : Env) : Env :=
  mkEnv (world env) (warned env ++ [text]) (localStorage env).

(** [saveState({...state, ...})]: the five persisted fields of a state. *)
Definition save (state : AppState) (env : Env) : Env :=
  mkEnv (world env) (warned env)
        (Storage.saveState (participants state) (assignments state)
                           (revealedParticipants state)
                           (isDrawComplete state) (soundEnabled state)
                           (localStorage env)).

(** The state [getInitialState] falls back to. *)
Definition emptyState : AppState :=
  mkAppState [] [] ∅ false setup None true.

(** [getInitialState] followed by the two fields that [create] adds:
    [currentScreen] from [isDrawComplete], and no selected participant. *)
Definition getInitialState (env : Env) : AppState * Env :=
  match Storage.loadState (localStorage env) with
  | Some stored =>
      let restored :=
        mkAppState (Storage.participants stored)
                   (Storage.assignments stored)
                   (list_to_set (Storage.revealedParticipants stored))
                   (Storage.isDrawComplete stored)
                   (if Storage.isDrawComplete stored then select else setup)
                   None
                   (Storage.soundEnabled stored) in
      if Storage.isDrawComplete stored
         && bool_decide (0 < length (Storage.assignments stored))
      then
        let isValid :=
          validateAssignments (Storage.participants stored)
                              (Storage.assignments stored) in
        if negb isValid then
          (emptyState,
           mkEnv (world env)
                 (warned env ++ ["Invalid stored assignments, resetting..."])
                 (Storage.clearState (localStorage env)))
        else (restored, env)
      else (restored, env)
  | None => (emptyState, env)
  end.

(** [addParticipant].  [String.prototype.trim] and [toLowerCase] are
    taken as given functions, and [newId] is what [generateId()] returned
    (a time stamp and random digits). *)
Definition addParticipant (trim toLowerCase : string -> string)
           (newId : string) (newName : string)
           (state : AppState) (env : Env) : AppState * Env :=
  let trimmedName := trim newName in
  if bool_decide (trimmedName = "") then (state, env)
  else
    let exists_ :=
      existsb (fun p => bool_decide (toLowerCase (name p)
                                     = toLowerCase trimmedName))
              (participants state) in
    if exists_ then (state, env)
    else
      let newParticipant := mkParticipant newId trimmedName in
      let state' :=
        mkAppState (participants state ++ [newParticipant])
                   (assignments state) (revealedParticipants state)
                   (isDrawComplete state) (currentScreen state)
                   (selectedParticipant state) (soundEnabled state) in
      (state', save state' env).

(** [removeParticipant]: only before the draw. *)
Definition removeParticipant (removedId : string)
           (state : AppState) (env : Env) : AppState * Env :=
  if isDrawComplete state then (state, env)
  else
    let state' :=
      mkAppState (filter (fun p => id p <> removedId) (participants state))
                 (assignments state) (revealedParticipants state)
                 (isDrawComplete state) (currentScreen state)
                 (selectedParticipant state) (soundEnabled state) in
    (state', save state' env).

(** [performDraw], with the default attempt budget of
    [generateDerangement]. *)
Definition performDraw (state : AppState) (env : Env)
  : bool * AppState * Env :=
  if isDrawComplete state then
    (false, state, console_warn "Draw already completed" env)
  else if bool_decide (length (participants state) < 2) then
    (false, state, console_warn "Need at least 2 participants" env)
  else
    let (found, w) :=
      generateDerangement (participants state) defaultMaxAttempts
                          (world env) in
    match found with
    | None =>
        (false, state,
         mkEnv (console_error "Failed to generate valid assignments" w).2
               (warned env) (localStorage env))
    | Some assignments =>
        let state' :=
          mkAppState (participants state) assignments
                     (revealedParticipants state) true select
                     (selectedParticipant state) (soundEnabled state) in
        (true, state', save state' (mkEnv w (warned env) (localStorage env)))
    end.

(** [selectParticipant]: refused for somebody who has already seen their
    match. *)
Definition selectParticipant (participant : Participant)
           (state : AppState) : bool * AppState :=
  if bool_decide (id participant ∈ revealedParticipants state) then
    (false, state)
  else
    (true,
     mkAppState (participants state) (assignments state)
                (revealedParticipants state) (isDrawComplete state)
                spin (Some participant) (soundEnabled state)).

(** [markAsRevealed]: the screen changes in the store; what is saved is
    the state with the new set. *)
Definition markAsRevealed (participantId : string)
           (state : AppState) (env : Env) : AppState * Env :=
  let newRevealed := {[participantId]} ∪ revealedParticipants state in
  let state' :=
    mkAppState (participants state) (assignments state) newRevealed
               (isDrawComplete state) reveal
               (selectedParticipant state) (soundEnabled state) in
  (state', save state' env).

(** [getAssignmentFor]: the first assignment of that giver, then the first
    participant with the receiver's id; [None] is [null]. *)
Definition getAssignmentFor (participantId : string) (state : AppState)
  : option Participant :=
  match find (fun a => bool_decide (giverId a = participantId))
             (assignments state) with
  | None => None
  | Some assignment =>
      find (fun p => bool_decide (id p = receiverId assignment))
           (participants state)
  end.

(** [resetAll]: [soundEnabled] is not among the fields it sets. *)
Definition resetAll (state : AppState) (env : Env) : AppState * Env :=
  (mkAppState [] [] ∅ false setup None (soundEnabled state),
   mkEnv (world env) (warned env) (Storage.clearState (localStorage env))).

Definition setScreen (screen : Screen) (state : AppState) : AppState :=
  mkAppState (participants state) (assignments state)
             (revealedParticipants state) (isDrawComplete state)
             screen (selectedParticipant state) (soundEnabled state).

Definition toggleSound (state : AppState) (env : Env) : AppState * Env :=
  let state' :=
    mkAppState (participants state) (assignments state)
               (revealedParticipants state) (isDrawComplete state)
               (currentScreen state) (selectedParticipant state)
               (negb (soundEnabled state)) in
  (state', save state' env).

Definition isParticipantRevealed (participantId : string)
           (state : AppState) : bool :=
  bool_decide (participantId ∈ revealedParticipants state).

End Store.

(** * Vocabulary of the statements *)

(** After [n] draws. *)
Definition advance (n : nat) (w : World) : World :=
  mkWorld (entropy w) (cursor w + n) (console w).

(** The index map of a swap is the transposition of [i] and [j]. *)
Definition transpose (i j k : nat) : nat :=
  if decide (k = j) then i else if decide (k = i) then j else k.

(** The draws a run of [shuffle] is going to read: [js] lists, first to
    last, the values that [Math.random] hands out from now on. *)
Definition feeds (w : World) (js : list nat) : Prop :=
  forall k j, js !! k = Some j -> entropy w (cursor w + k) = j.

(** [js] is a choice sequence for a loop that starts at index [i]: one
    choice for each of [i, i-1, ..., 1], each at most its index. *)
Fixpoint valid_choices (i : nat) (js : list nat) : bool :=
  match i, js with
  | 0, [] => true
  | S i', j :: js' => bool_decide (j <= S i') && valid_choices i' js'
  | _, _ => false
  end.

(** A world whose next draws are [js] (and 0 ever after). *)
Definition tape (js : list nat) : World :=
  mkWorld (fun k => default 0 (js !! k)) 0 [].

(** The world after one more console line. *)
Definition logged (entry : ConsoleEntry) (w : World) : World :=
  mkWorld (entropy w) (cursor w) (console w ++ [entry]).

(** What the [k]-th attempt (counted from 0) shuffles the ids into: each
    attempt makes [length ids - 1] draws. *)
Definition nth_shuffle (ids : list string) (w : World) (k : nat) : list string :=
  (shuffle ids (advance (k * (length ids - 1)) w)).1.

Definition success_line (attempts : nat) : ConsoleEntry :=
  console_log_entry ("Derangement generated successfully in "
                       +:+ pretty attempts +:+ " attempts").

Definition exhausted_line (maxAttempts : nat) : ConsoleEntry :=
  console_error_entry ("Failed to generate derangement after "
                         +:+ pretty maxAttempts +:+ " attempts").

Definition insufficient_line : ConsoleEntry :=
  console_error_entry "Need at least 2 participants for Secret Santa".

(** What the loop body checks of one assignment against the known ids. *)
Definition assignment_ok (participantIds : gset string) (a : Assignment) : Prop :=
  giverId a ∈ participantIds /\ receiverId a ∈ participantIds /\
  giverId a <> receiverId a.

(** The loop gets through exactly when every assignment is well formed and
    neither column repeats an id, within itself or from the sets it
    started with. *)
Definition loop_passes (participantIds giverIds receiverIds : gset string)
           (assignments : list Assignment) : Prop :=
  Forall (assignment_ok participantIds) assignments /\
  NoDup (giverId <$> assignments) /\
  NoDup (receiverId <$> assignments) /\
  (forall a, a ∈ assignments -> giverId a ∉ giverIds) /\
  (forall a, a ∈ assignments -> receiverId a ∉ receiverIds).

(** The five checks of the validator, as a proposition. *)
Definition checks_pass (participants : list Participant)
           (assignments : list Assignment) : Prop :=
  length assignments = length participants /\
  (forall a, a ∈ assignments ->
     (exists p, p ∈ participants /\ giverId a = id p) /\
     (exists p, p ∈ participants /\ receiverId a = id p)) /\
  (forall a, a ∈ assignments -> giverId a <> receiverId a) /\
  (NoDup (giverId <$> assignments) /\ NoDup (receiverId <$> assignments)) /\
  size (list_to_set (giverId <$> assignments) : gset string)
    = length participants /\
  size (list_to_set (receiverId <$> assignments) : gset string)
    = length participants.

(** [g] gives to [r]. *)
Definition gives (g r : Participant) : Assignment :=
  mkAssignment (id g) (id r).

(** None of the first [maxAttempts] shuffles is a derangement. *)
Definition exhausted (participants : list Participant) (maxAttempts : nat)
           (w : World) : Prop :=
  forall k, k < maxAttempts ->
    isDerangement (id <$> participants)
                  (nth_shuffle (id <$> participants) w k) = false.

Section DynamicVocabulary.
Import Dynamic.

(** A JavaScript set of strings and the finite set it stands for. *)
Definition models (s : JSSet) (G : gset string) : Prop :=
  exists l, s = JString <$> l /\ NoDup l /\ G = list_to_set l.

(** [null] and [undefined], the two values without properties. *)
Definition is_nullish (v : JSValue) : bool :=
  match v with
  | JUndefined | JNull => true
  | _ => false
  end.

Definition is_string (v : JSValue) : bool :=
  match v with
  | JString _ => true
  | _ => false
  end.

(** An array entry that has both [giverId] and [receiverId], both strings. *)
Definition has_string_fields (item : JSValue) : bool :=
  match get item key_giverId, get item key_receiverId with
  | Normal g, Normal r => is_string g && is_string r
  | _, _ => false
  end.
End DynamicVocabulary.

Section StoreVocabulary.
Import Store.

(** What a reload makes of a state that was saved: the persisted fields,
    the screen that goes with [isDrawComplete], nobody selected. *)
Definition reloaded (state : AppState) : AppState :=
  mkAppState (participants state) (assignments state)
             (revealedParticipants state) (isDrawComplete state)
             (if isDrawComplete state then select else setup)
             None (soundEnabled state).

(** The stored draw passes the check made on load, or is exempt from it. *)
Definition loadable (state : AppState) : bool :=
  negb (isDrawComplete state
        && bool_decide (0 < length (assignments state)))
  || validateAssignments (participants state) (assignments state).

(** The actions of the store other than [addParticipant]. *)
Inductive Action :=
| do_removeParticipant (removedId : string)
| do_performDraw
| do_selectParticipant (participant : Participant)
| do_markAsRevealed (participantId : string)
| do_resetAll
| do_setScreen (screen : Screen)
| do_toggleSound.

Definition act (current : AppState * Env) (action : Action)
  : AppState * Env :=
  let (state, env) := current in
  match action with
  | do_removeParticipant removedId => removeParticipant removedId state env
  | do_performDraw =>
      ((performDraw state env).1.2, (performDraw state env).2)
  | do_selectParticipant participant =>
      ((selectParticipant participant state).2, env)
  | do_markAsRevealed participantId => markAsRevealed participantId state env
  | do_resetAll => resetAll state env
  | do_setScreen screen => (setScreen screen state, env)
  | do_toggleSound => toggleSound state env
  end.

(** The ids are pairwise distinct, and a complete draw passes the
    validator. *)
Definition sound_draw (state : AppState) : Prop :=
  NoDup (id <$> participants state) /\
  (isDrawComplete state = true ->
   validateAssignments (participants state) (assignments state) = true).
End StoreVocabulary.

(** * Properties *)

#[local] Set Warnings "-clear-no-such-hyp".

(** ** Running a computation *)

Lemma bind_run {A B} (m : M A) (k : A -> M B) (w : World) :
  bind m k w = k (m w).1 (m w).2.
Proof. unfold bind. by destruct (m w). Qed.

Lemma advance_0 w : advance 0 w = w.
Proof. destruct w. unfold advance. simpl. f_equal. lia. Qed.

Lemma advance_advance n m w : advance n (advance m w) = advance (m + n) w.
Proof. unfold advance. simpl. f_equal. lia. Qed.

Lemma random_below_run n w :
  random_below n w = (entropy w (cursor w) mod n, advance 1 w).
Proof. unfold random_below, advance. do 2 f_equal. lia. Qed.

(** ** [swap] *)

Section SwapFacts.
Context {T : Type}.
Implicit Types (l result front back : list T) (i j : nat).

Lemma swap_length i j l : length (swap i j l) = length l.
Proof.
  unfold swap. destruct (l !! i), (l !! j); try done.
  by rewrite !length_insert.
Qed.

(** Reading the array after a swap. *)
Lemma swap_lookup i j l k :
  i < length l -> j < length l ->
  swap i j l !! k =
    if decide (k = j) then l !! i
    else if decide (k = i) then l !! j
    else l !! k.
Proof.
  intros Hi Hj. unfold swap.
  destruct (lookup_lt_is_Some_2 l i Hi) as [x Hx].
  destruct (lookup_lt_is_Some_2 l j Hj) as [y Hy].
  rewrite Hx, Hy.
  destruct (decide (k = j)) as [->|Hkj].
  - rewrite list_lookup_insert_eq; [done | by rewrite length_insert].
  - rewrite list_lookup_insert_ne by done.
    destruct (decide (k = i)) as [->|Hki].
    + by rewrite list_lookup_insert_eq.
    + by rewrite list_lookup_insert_ne.
Qed.

Lemma transpose_inj i j : Inj (=) (=) (transpose i j).
Proof.
  intros a b. unfold transpose.
  repeat case_decide; intros; subst; congruence.
Qed.

Lemma swap_lookup_transpose i j l k :
  i < length l -> j < length l ->
  swap i j l !! k = l !! transpose i j k.
Proof.
  intros Hi Hj. rewrite swap_lookup by done. unfold transpose.
  by repeat case_decide.
Qed.

Lemma swap_Permutation i j l : swap i j l ≡ₚ l.
Proof.
  destruct (decide (i < length l)) as [Hi|Hi]; cycle 1.
  { unfold swap. rewrite (lookup_ge_None_2 l i) by lia. done. }
  destruct (decide (j < length l)) as [Hj|Hj]; cycle 1.
  { unfold swap. rewrite (lookup_ge_None_2 l j) by lia.
    by destruct (l !! i). }
  apply Permutation_inj. split; [apply swap_length|].
  exists (transpose i j). split; [apply transpose_inj|].
  intros k. by apply swap_lookup_transpose.
Qed.

Lemma swap_app i j front back :
  i < length front -> j < length front ->
  swap i j (front ++ back) = swap i j front ++ back.
Proof.
  intros Hi Hj. apply list_eq. intros k.
  rewrite swap_lookup by (rewrite length_app; lia).
  destruct (decide (k < length front)) as [Hk|Hk].
  - rewrite (lookup_app_l (swap i j front)) by (by rewrite swap_length).
    rewrite swap_lookup by done.
    by rewrite !lookup_app_l by done.
  - rewrite (lookup_app_r (swap i j front)) by (rewrite swap_length; lia).
    rewrite swap_length.
    rewrite !decide_False by lia.
    by rewrite lookup_app_r by lia.
Qed.

Lemma split_last l n y :
  length l = S n -> l !! n = Some y -> l = take n l ++ [y].
Proof.
  intros Hlen Hy. rewrite <- (take_drop n l) at 1. f_equal.
  apply list_eq. intros [|k].
  - by rewrite lookup_drop, Nat.add_0_r.
  - rewrite lookup_drop. apply lookup_ge_None_2. lia.
Qed.

(** Swapping into the last cell: the cell then holds [l[j]]. *)
Lemma swap_split_last l n j y :
  length l = S n -> l !! j = Some y ->
  swap n j l = take n (swap n j l) ++ [y].
Proof.
  intros Hlen Hy. pose proof (lookup_lt_Some _ _ _ Hy) as Hj.
  apply split_last; [by rewrite swap_length|].
  rewrite swap_lookup by lia. repeat case_decide; congruence.
Qed.

Lemma swap_fmap {U} (f : T -> U) i j l :
  swap i j (f <$> l) = f <$> swap i j l.
Proof.
  unfold swap. rewrite !list_lookup_fmap.
  destruct (l !! i), (l !! j); simpl; try done.
  by rewrite !list_fmap_insert.
Qed.
End SwapFacts.

(** ** [shuffle] *)

Lemma feeds_tape js : feeds (tape js) js.
Proof. intros k j Hk. simpl. by rewrite Hk. Qed.

Lemma feeds_cons w j js :
  feeds w (j :: js) -> entropy w (cursor w) = j /\ feeds (advance 1 w) js.
Proof.
  intros H. split.
  - rewrite <- (H 0 j eq_refl). f_equal. lia.
  - intros k x Hk. simpl. rewrite <- (H (S k) x Hk). f_equal. lia.
Qed.

Section ShuffleFacts.
Context {T : Type}.
Implicit Types (l result front back array : list T) (i j : nat) (w : World).

Lemma shuffle_loop_step i result w :
  shuffle_loop (S i) result w =
    shuffle_loop i (swap (S i) (entropy w (cursor w) mod (S i + 1)) result)
                 (advance 1 w).
Proof. simpl. by rewrite bind_run, random_below_run. Qed.

(** A run makes one draw per index and writes nothing. *)
Lemma shuffle_loop_world i result w :
  (shuffle_loop i result w).2 = advance i w.
Proof.
  revert result w. induction i as [|i IH]; intros result w.
  - by rewrite advance_0.
  - by rewrite shuffle_loop_step, IH, advance_advance.
Qed.

Lemma shuffle_loop_length i result w :
  length (shuffle_loop i result w).1 = length result.
Proof.
  revert result w. induction i as [|i IH]; intros result w; [done|].
  by rewrite shuffle_loop_step, IH, swap_length.
Qed.

Lemma shuffle_loop_Permutation i result w :
  (shuffle_loop i result w).1 ≡ₚ result.
Proof.
  revert result w. induction i as [|i IH]; intros result w; [done|].
  by rewrite shuffle_loop_step, IH, swap_Permutation.
Qed.

(** The loop never looks past index [i]. *)
Lemma shuffle_loop_app i front back w :
  i < length front ->
  (shuffle_loop i (front ++ back) w).1 = (shuffle_loop i front w).1 ++ back.
Proof.
  revert front w. induction i as [|i IH]; intros front w Hi; [done|].
  rewrite !shuffle_loop_step.
  assert (entropy w (cursor w) mod (S i + 1) < length front) as Hj.
  { pose proof (Nat.mod_upper_bound (entropy w (cursor w)) (S i + 1)). lia. }
  rewrite swap_app by done.
  apply IH. rewrite swap_length. lia.
Qed.

(** The first iteration settles the last cell for good. *)
Lemma shuffle_loop_last i l w j y :
  length l = S (S i) ->
  j = entropy w (cursor w) mod (S i + 1) ->
  l !! j = Some y ->
  (shuffle_loop (S i) l w).1 =
    (shuffle_loop i (take (S i) (swap (S i) j l)) (advance 1 w)).1 ++ [y].
Proof.
  intros Hlen -> Hy. rewrite shuffle_loop_step.
  rewrite (swap_split_last l (S i) _ y Hlen Hy) at 1.
  apply shuffle_loop_app.
  rewrite length_take, swap_length. lia.
Qed.

Lemma shuffle_length array w : length (shuffle array w).1 = length array.
Proof. apply shuffle_loop_length. Qed.

Lemma shuffle_Permutation array w : (shuffle array w).1 ≡ₚ array.
Proof. apply shuffle_loop_Permutation. Qed.

Lemma shuffle_world array w :
  (shuffle array w).2 = advance (length array - 1) w.
Proof. apply shuffle_loop_world. Qed.

(** Every arrangement of a duplicate-free array is reached. *)
Lemma shuffle_loop_reaches i l l' :
  length l = S i -> NoDup l -> l' ≡ₚ l ->
  exists js, valid_choices i js = true /\
             forall w, feeds w js -> (shuffle_loop i l w).1 = l'.
Proof.
  revert l l'. induction i as [|i IH]; intros l l' Hlen Hnd Hperm.
  - exists []. split; [done|]. intros w _. simpl.
    destruct l as [|x [|??]]; try done.
    symmetry. by apply Permutation_singleton_r.
  - assert (length l' = S (S i)) as Hlen'
        by (by rewrite (Permutation_length Hperm)).
    destruct (lookup_lt_is_Some_2 l' (S i)) as [y Hy]; [lia|].
    pose proof (split_last l' (S i) y Hlen' Hy) as Hsplit'.
    assert (y ∈ l) as Hin.
    { rewrite <- Hperm. by eapply list_elem_of_lookup_2. }
    apply list_elem_of_lookup_1 in Hin as [j Hj].
    pose proof (lookup_lt_Some _ _ _ Hj) as Hjlt.
    pose proof (swap_split_last l (S i) j y Hlen Hj) as Hsplit.
    set (l1 := swap (S i) j l) in *.
    assert (l1 ≡ₚ l) as Hperm1 by apply swap_Permutation.
    destruct (IH (take (S i) l1) (take (S i) l')) as (js & Hjs & Hrun).
    + rewrite length_take. unfold l1. rewrite swap_length. lia.
    + eapply (NoDup_app (take (S i) l1) [y]). rewrite <- Hsplit.
      by rewrite Hperm1.
    + apply (Permutation_app_inv_r [y]).
      by rewrite <- Hsplit', <- Hsplit, Hperm1.
    + exists (j :: js). split.
      * simpl. rewrite Hjs. rewrite bool_decide_true by lia. done.
      * intros w Hw. apply feeds_cons in Hw as [Hw0 Hw1].
        assert (j = entropy w (cursor w) mod (S i + 1)) as Hmod.
        { rewrite Hw0. symmetry. apply Nat.mod_small. lia. }
        rewrite (shuffle_loop_last i l w j y Hlen Hmod Hj).
        fold l1. rewrite (Hrun _ Hw1). by rewrite <- Hsplit'.
Qed.

(** Two choice sequences with the same outcome are the same. *)
Lemma shuffle_loop_choices_inj i l js1 js2 w1 w2 :
  length l = S i -> NoDup l ->
  valid_choices i js1 = true -> valid_choices i js2 = true ->
  feeds w1 js1 -> feeds w2 js2 ->
  (shuffle_loop i l w1).1 = (shuffle_loop i l w2).1 ->
  js1 = js2.
Proof.
  revert l js1 js2 w1 w2.
  induction i as [|i IH]; intros l js1 js2 w1 w2 Hlen Hnd Hv1 Hv2 Hf1 Hf2 Heq.
  - by destruct js1, js2.
  - destruct js1 as [|j1 js1], js2 as [|j2 js2]; try done.
    simpl in Hv1, Hv2.
    apply andb_true_iff in Hv1 as [Hj1%bool_decide_eq_true Hv1].
    apply andb_true_iff in Hv2 as [Hj2%bool_decide_eq_true Hv2].
    apply feeds_cons in Hf1 as [Hw1 Hf1].
    apply feeds_cons in Hf2 as [Hw2 Hf2].
    destruct (lookup_lt_is_Some_2 l j1) as [y1 Hy1]; [lia|].
    destruct (lookup_lt_is_Some_2 l j2) as [y2 Hy2]; [lia|].
    assert (j1 = entropy w1 (cursor w1) mod (S i + 1)) as Hm1.
    { rewrite Hw1. symmetry. apply Nat.mod_small. lia. }
    assert (j2 = entropy w2 (cursor w2) mod (S i + 1)) as Hm2.
    { rewrite Hw2. symmetry. apply Nat.mod_small. lia. }
    rewrite (shuffle_loop_last i l w1 j1 y1 Hlen Hm1 Hy1) in Heq.
    rewrite (shuffle_loop_last i l w2 j2 y2 Hlen Hm2 Hy2) in Heq.
    apply app_inj_tail in Heq as [Heq Hy]. subst y2.
    assert (j1 = j2) as <- by (by eapply NoDup_lookup).
    f_equal. eapply (IH (take (S i) (swap (S i) j1 l))); try done.
    + rewrite length_take, swap_length. lia.
    + apply (sublist_NoDup _ (swap (S i) j1 l)); [|apply sublist_take].
      by rewrite swap_Permutation.
Qed.
End ShuffleFacts.

(** [shuffle] moves cells around without looking into them. *)
Lemma shuffle_loop_fmap {T U} (f : T -> U) i (l : list T) w :
  (shuffle_loop i (f <$> l) w).1 = f <$> (shuffle_loop i l w).1.
Proof.
  revert l w. induction i as [|i IH]; intros l w; [done|].
  by rewrite !shuffle_loop_step, swap_fmap, IH.
Qed.

Lemma shuffle_fmap {T U} (f : T -> U) (array : list T) w :
  (shuffle (f <$> array) w).1 = f <$> (shuffle array w).1.
Proof. unfold shuffle. rewrite length_fmap. apply shuffle_loop_fmap. Qed.

(** Where each cell of the result comes from: the run on an array is the
    run on its indices, read back through the array. *)
Lemma shuffle_positions {T} (array : list T) w :
  Some <$> (shuffle array w).1 =
  (array !!.) <$> (shuffle (seq 0 (length array)) w).1.
Proof.
  rewrite <- !shuffle_fmap.
  assert (Some <$> array = (array !!.) <$> seq 0 (length array)) as ->; [|done].
  apply list_eq. intros k. rewrite !list_lookup_fmap.
  destruct (decide (k < length array)) as [Hk|Hk].
  - rewrite lookup_seq_lt by done. simpl.
    by destruct (lookup_lt_is_Some_2 array k Hk) as [x ->].
  - rewrite lookup_seq_ge by lia. by rewrite lookup_ge_None_2 by lia.
Qed.

Lemma valid_choices_0 js : valid_choices 0 js = true -> js = [].
Proof. by destruct js. Qed.

Lemma shuffle_reaches {T} (array l' : list T) :
  NoDup array -> l' ≡ₚ array ->
  exists js, valid_choices (length array - 1) js = true /\
             forall w, feeds w js -> (shuffle array w).1 = l'.
Proof.
  intros Hnd Hperm. destruct array as [|x array].
  - apply Permutation_nil_r in Hperm as ->. exists []. by split.
  - unfold shuffle. simpl. rewrite Nat.sub_0_r.
    by apply shuffle_loop_reaches.
Qed.

Lemma shuffle_choices_inj {T} (array : list T) js1 js2 w1 w2 :
  NoDup array ->
  valid_choices (length array - 1) js1 = true ->
  valid_choices (length array - 1) js2 = true ->
  feeds w1 js1 -> feeds w2 js2 ->
  (shuffle array w1).1 = (shuffle array w2).1 ->
  js1 = js2.
Proof.
  intros Hnd Hv1 Hv2 Hf1 Hf2 Heq. destruct array as [|x array].
  - apply valid_choices_0 in Hv1, Hv2. congruence.
  - unfold shuffle in Heq. simpl in Hv1, Hv2, Heq.
    rewrite Nat.sub_0_r in Hv1, Hv2, Heq.
    by apply (shuffle_loop_choices_inj (length array) (x :: array)
                                       js1 js2 w1 w2).
Qed.

(** ** [isDerangement] and the pairing *)

Lemma isDerangement_loop_true original shuffled i todo :
  isDerangement_loop original shuffled i todo = true <->
  forall k, i <= k < i + todo -> same_at original shuffled k = false.
Proof.
  revert i. induction todo as [|todo IH]; intros i; simpl.
  - split; [intros _ k ?; lia | done].
  - destruct (same_at original shuffled i) eqn:Hi.
    + split; [done|]. intros H. rewrite H in Hi by lia. done.
    + rewrite IH. split.
      * intros H k Hk. destruct (decide (k = i)) as [->|]; [done|].
        apply H. lia.
      * intros H k Hk. apply H. lia.
Qed.

(** No position holds the same id in both arrays. *)
Lemma isDerangement_true original shuffled :
  isDerangement original shuffled = true <->
  forall k o s, original !! k = Some o -> shuffled !! k = Some s -> o <> s.
Proof.
  unfold isDerangement. rewrite isDerangement_loop_true. split.
  - intros H k o s Ho Hs. pose proof (lookup_lt_Some _ _ _ Ho) as Hk.
    specialize (H k ltac:(lia)). unfold same_at in H. rewrite Ho, Hs in H.
    by apply bool_decide_eq_false in H.
  - intros H k Hk. unfold same_at.
    destruct (lookup_lt_is_Some_2 original k) as [o Ho]; [lia|].
    rewrite Ho. destruct (shuffled !! k) as [s|] eqn:Hs; [|done].
    apply bool_decide_eq_false. by eapply H.
Qed.

Lemma pair_up_lookup ids shuffledIds k :
  pair_up ids shuffledIds !! k =
  (fun giverId => mkAssignment giverId (default "" (shuffledIds !! k)))
    <$> ids !! k.
Proof. unfold pair_up. by rewrite list_lookup_imap. Qed.

Lemma pair_up_givers ids shuffledIds :
  giverId <$> pair_up ids shuffledIds = ids.
Proof.
  apply list_eq. intros k. rewrite list_lookup_fmap, pair_up_lookup.
  by destruct (ids !! k).
Qed.

Lemma pair_up_receivers ids shuffledIds :
  length shuffledIds = length ids ->
  receiverId <$> pair_up ids shuffledIds = shuffledIds.
Proof.
  intros Hlen. apply list_eq. intros k.
  rewrite list_lookup_fmap, pair_up_lookup.
  destruct (ids !! k) as [g|] eqn:Hg; simpl.
  - apply lookup_lt_Some in Hg.
    destruct (lookup_lt_is_Some_2 shuffledIds k) as [r ->]; [lia|]. done.
  - apply lookup_ge_None_1 in Hg. symmetry. apply lookup_ge_None_2. lia.
Qed.

(** ** [generateDerangement] *)

Lemma shuffle_run {T} (array : list T) w :
  shuffle array w = ((shuffle array w).1, advance (length array - 1) w).
Proof. rewrite <- shuffle_world. by destruct (shuffle array w). Qed.

Lemma nth_shuffle_advance ids w k :
  nth_shuffle ids (advance (length ids - 1) w) k = nth_shuffle ids w (S k).
Proof.
  unfold nth_shuffle. rewrite advance_advance.
  by replace (length ids - 1 + k * (length ids - 1))
    with (S k * (length ids - 1)) by lia.
Qed.

(** The attempt loop stops at the first attempt that is a derangement, or
    runs out after [todo] attempts. *)
Lemma attempt_loop_spec ids attempt todo w :
  ((forall k, k < todo -> isDerangement ids (nth_shuffle ids w k) = false) /\
   attempt_loop ids attempt todo w =
     (None, advance (todo * (length ids - 1)) w))
  \/
  (exists k, k < todo /\
     (forall k', k' < k -> isDerangement ids (nth_shuffle ids w k') = false) /\
     isDerangement ids (nth_shuffle ids w k) = true /\
     attempt_loop ids attempt todo w =
       (Some (pair_up ids (nth_shuffle ids w k)),
        logged (success_line (attempt + k + 1))
               (advance (S k * (length ids - 1)) w))).
Proof.
  revert attempt w. induction todo as [|todo IH]; intros attempt w.
  - left. split; [intros; lia|]. simpl. by rewrite advance_0.
  - assert (nth_shuffle ids w 0 = (shuffle ids w).1) as H0.
    { unfold nth_shuffle. simpl. by rewrite advance_0. }
    cbn [attempt_loop]. rewrite bind_run, shuffle_run. cbn [fst snd].
    rewrite <- H0.
    destruct (isDerangement ids (nth_shuffle ids w 0)) eqn:Hd.
    + right. exists 0. split; [lia|]. split; [intros; lia|]. split; [done|].
      rewrite bind_run. unfold console_log, ret, logged, success_line. simpl.
      by rewrite !Nat.add_0_r.
    + destruct (IH (S attempt) (advance (length ids - 1) w))
        as [[Hall Hrun]|(k & Hk & Hbefore & Hat & Hrun)].
      * left. split.
        -- intros [|k] Hk; [done|]. rewrite <- nth_shuffle_advance.
           apply Hall. lia.
        -- rewrite Hrun, advance_advance.
           by replace (length ids - 1 + todo * (length ids - 1))
             with (S todo * (length ids - 1)) by lia.
      * right. exists (S k). split; [lia|]. split; [|split].
        -- intros [|k'] Hk'; [done|]. rewrite <- nth_shuffle_advance.
           apply Hbefore. lia.
        -- by rewrite <- nth_shuffle_advance.
        -- rewrite Hrun, advance_advance, nth_shuffle_advance.
           replace (S attempt + k + 1) with (attempt + S k + 1) by lia.
           by replace (length ids - 1 + S k * (length ids - 1))
             with (S (S k) * (length ids - 1)) by lia.
Qed.

Lemma generateDerangement_insufficient participants maxAttempts w :
  length participants < 2 ->
  generateDerangement participants maxAttempts w =
    (None, logged insufficient_line w).
Proof.
  intros Hlen. unfold generateDerangement.
  by rewrite bool_decide_true by done.
Qed.

(** With two participants or more: the first derangement among the first
    [maxAttempts] shuffles, or [null] when there is none. *)
Lemma generateDerangement_spec participants maxAttempts w :
  2 <= length participants ->
  let ids := id <$> participants in
  ((forall k, k < maxAttempts ->
              isDerangement ids (nth_shuffle ids w k) = false) /\
   generateDerangement participants maxAttempts w =
     (None, logged (exhausted_line maxAttempts)
                   (advance (maxAttempts * (length ids - 1)) w)))
  \/
  (exists k, k < maxAttempts /\
     (forall k', k' < k -> isDerangement ids (nth_shuffle ids w k') = false) /\
     isDerangement ids (nth_shuffle ids w k) = true /\
     generateDerangement participants maxAttempts w =
       (Some (pair_up ids (nth_shuffle ids w k)),
        logged (success_line (k + 1)) (advance (S k * (length ids - 1)) w))).
Proof.
  intros Hlen ids. unfold generateDerangement.
  rewrite bool_decide_false by lia. fold ids. rewrite bind_run.
  destruct (attempt_loop_spec ids 0 maxAttempts w)
    as [[Hall Hrun]|(k & Hk & Hbefore & Hat & Hrun)]; rewrite Hrun.
  - left. by split.
  - right. exists k. by repeat split.
Qed.

(** A successful draw pairs the ids with a fixed-point-free rearrangement
    of themselves. *)
Lemma generateDerangement_Some participants maxAttempts w assignments :
  (generateDerangement participants maxAttempts w).1 = Some assignments ->
  exists shuffledIds,
    shuffledIds ≡ₚ id <$> participants /\
    isDerangement (id <$> participants) shuffledIds = true /\
    assignments = pair_up (id <$> participants) shuffledIds.
Proof.
  intros Hrun. destruct (decide (length participants < 2)) as [Hlen|Hlen].
  - by rewrite generateDerangement_insufficient in Hrun.
  - destruct (generateDerangement_spec participants maxAttempts w)
      as [[_ Heq]|(k & _ & _ & Hat & Heq)]; [lia| |];
      rewrite Heq in Hrun; [done|].
    injection Hrun as <-. eexists. split; [|done].
    apply shuffle_Permutation.
Qed.

(** Two ids: the only shuffle loop step either swaps them or leaves them. *)
Lemma nth_shuffle_two x y w k :
  nth_shuffle [x; y] w k =
    if (entropy w (cursor w + k) mod 2 =? 0)%nat then [y; x] else [x; y].
Proof.
  unfold nth_shuffle, shuffle. change (length [x; y] - 1) with 1.
  rewrite shuffle_loop_step. cbn [shuffle_loop ret fst advance entropy cursor].
  change (1 + 1) with 2. rewrite Nat.mul_1_r.
  pose proof (Nat.mod_upper_bound (entropy w (cursor w + k)) 2) as Hlt.
  destruct (entropy w (cursor w + k) mod 2) as [|[|j]]; [done|done|lia].
Qed.

Lemma isDerangement_two x y :
  x <> y ->
  isDerangement [x; y] [y; x] = true /\ isDerangement [x; y] [x; y] = false.
Proof.
  intros Hne. unfold isDerangement. simpl. unfold same_at. simpl.
  rewrite (bool_decide_false (x = y)) by done.
  rewrite (bool_decide_false (y = x)) by done.
  by rewrite (bool_decide_true (x = x)).
Qed.

(** ** [validateAssignments] *)

Lemma validate_loop_spec participantIds giverIds receiverIds assignments :
  match validate_loop participantIds giverIds receiverIds assignments with
  | Some (giverIds', receiverIds') =>
      loop_passes participantIds giverIds receiverIds assignments /\
      giverIds' = list_to_set (giverId <$> assignments) ∪ giverIds /\
      receiverIds' = list_to_set (receiverId <$> assignments) ∪ receiverIds
  | None => ~ loop_passes participantIds giverIds receiverIds assignments
  end.
Proof.
  revert giverIds receiverIds.
  induction assignments as [|a rest IH]; intros giverIds receiverIds.
  - simpl. split; [|set_solver].
    repeat split; try constructor; intros ? ?%elem_of_nil; done.
  - cbn [validate_loop].
    destruct (bool_decide (giverId a ∈ participantIds)) eqn:Hg; cycle 1.
    { apply bool_decide_eq_false in Hg. simpl.
      intros (Hok & _). inv Hok. unfold assignment_ok in *. tauto. }
    destruct (bool_decide (receiverId a ∈ participantIds)) eqn:Hr; cycle 1.
    { apply bool_decide_eq_false in Hr. simpl.
      intros (Hok & _). inv Hok. unfold assignment_ok in *. tauto. }
    apply bool_decide_eq_true in Hg, Hr. simpl.
    destruct (bool_decide (giverId a = receiverId a)) eqn:Hself.
    { apply bool_decide_eq_true in Hself.
      intros (Hok & _). inv Hok. unfold assignment_ok in *. tauto. }
    apply bool_decide_eq_false in Hself.
    destruct (bool_decide (giverId a ∈ giverIds)) eqn:Hdg.
    { apply bool_decide_eq_true in Hdg. simpl.
      intros (_ & _ & _ & Hfresh & _). apply (Hfresh a); [left|done]. }
    destruct (bool_decide (receiverId a ∈ receiverIds)) eqn:Hdr.
    { apply bool_decide_eq_true in Hdr. simpl.
      intros (_ & _ & _ & _ & Hfresh). apply (Hfresh a); [left|done]. }
    apply bool_decide_eq_false in Hdg, Hdr. simpl.
    specialize (IH ({[giverId a]} ∪ giverIds) ({[receiverId a]} ∪ receiverIds)).
    destruct (validate_loop participantIds _ _ rest) as [[G' R']|].
    + destruct IH as ((Hok & Hng & Hnr & Hfg & Hfr) & -> & ->).
      split; [|split; set_solver].
      repeat split.
      * by constructor.
      * rewrite fmap_cons. constructor; [|done].
        intros (b & Hb & Hin)%list_elem_of_fmap.
        apply (Hfg b Hin). set_solver.
      * rewrite fmap_cons. constructor; [|done].
        intros (b & Hb & Hin)%list_elem_of_fmap.
        apply (Hfr b Hin). set_solver.
      * intros b [->|Hb]%elem_of_cons; [done|].
        specialize (Hfg b Hb). set_solver.
      * intros b [->|Hb]%elem_of_cons; [done|].
        specialize (Hfr b Hb). set_solver.
    + intros (Hok & Hng & Hnr & Hfg & Hfr). apply IH.
      inv Hok. rewrite !fmap_cons in *. inv Hng. inv Hnr.
      repeat split; try done.
      * intros b Hb. apply not_elem_of_union. split.
        -- apply not_elem_of_singleton. intros Heq.
           match goal with H : giverId a ∉ _ |- _ => apply H end.
           rewrite <- Heq. by apply list_elem_of_fmap_2.
        -- apply Hfg. by right.
      * intros b Hb. apply not_elem_of_union. split.
        -- apply not_elem_of_singleton. intros Heq.
           match goal with H : receiverId a ∉ _ |- _ => apply H end.
           rewrite <- Heq. by apply list_elem_of_fmap_2.
        -- apply Hfr. by right.
Qed.

Lemma elem_of_participantIds (participants : list Participant) x :
  x ∈ (list_to_set (id <$> participants) : gset string) <->
  exists p, p ∈ participants /\ x = id p.
Proof. rewrite elem_of_list_to_set, list_elem_of_fmap. naive_solver. Qed.

Lemma validateAssignments_true participants assignments :
  validateAssignments participants assignments = true <->
  checks_pass participants assignments.
Proof.
  unfold validateAssignments, checks_pass.
  destruct (bool_decide (length assignments = length participants)) eqn:Hlen;
    simpl; cycle 1.
  { apply bool_decide_eq_false in Hlen. split; [done | tauto]. }
  apply bool_decide_eq_true in Hlen.
  pose proof (validate_loop_spec (list_to_set (id <$> participants)) ∅ ∅
                                 assignments) as Hloop.
  destruct (validate_loop _ ∅ ∅ assignments) as [[G R]|].
  - destruct Hloop as ((Hok & Hng & Hnr & _ & _) & -> & ->).
    rewrite !(right_id_L ∅ (∪)).
    rewrite andb_true_iff, !bool_decide_eq_true.
    split; [|tauto]. intros [HG HR]. rewrite Forall_forall in Hok.
    split; [done|]. split; [|split; [|done]].
    + intros a Ha. destruct (Hok a Ha) as (Hg & Hr & _).
      split; by apply elem_of_participantIds.
    + intros a Ha. by destruct (Hok a Ha) as (_ & _ & ?).
  - split; [done|]. intros (_ & Hmem & Hself & [Hng Hnr] & _). destruct Hloop.
    repeat split; try done; [|set_solver..].
    apply Forall_forall. intros a Ha. destruct (Hmem a Ha) as [Hg Hr].
    repeat split; [by apply elem_of_participantIds..|by apply Hself].
Qed.

(** A list that passes the validator forces the participant ids to be
    pairwise distinct: the givers are that many distinct known ids. *)
Lemma checks_pass_NoDup_ids participants assignments :
  checks_pass participants assignments -> NoDup (id <$> participants).
Proof.
  intros (Hlen & Hmem & _ & [Hng _] & _).
  assert ((giverId <$> assignments) ⊆+ (id <$> participants)) as Hsub.
  { apply NoDup_submseteq; [done|].
    intros x (a & -> & Ha)%list_elem_of_fmap.
    destruct (Hmem a Ha) as [(p & Hp & ->) _]. by apply list_elem_of_fmap_2. }
  apply submseteq_length_Permutation in Hsub.
  - by rewrite <- Hsub.
  - rewrite !length_fmap. lia.
Qed.

(** No position of a fixed-point-free pairing gives to itself. *)
Lemma pair_up_no_fixed_point ids shuffledIds k a :
  length shuffledIds = length ids ->
  isDerangement ids shuffledIds = true ->
  pair_up ids shuffledIds !! k = Some a ->
  receiverId a <> giverId a.
Proof.
  intros Hlen Hder Ha. rewrite pair_up_lookup in Ha.
  destruct (ids !! k) as [g|] eqn:Hg; [|done].
  injection Ha as <-. simpl.
  destruct (lookup_lt_is_Some_2 shuffledIds k) as [r Hr].
  { apply lookup_lt_Some in Hg. lia. }
  rewrite Hr. simpl. intros ->.
  by eapply (proj1 (isDerangement_true ids shuffledIds) Hder k).
Qed.

Lemma pair_up_checks_pass participants shuffledIds :
  NoDup (id <$> participants) ->
  shuffledIds ≡ₚ id <$> participants ->
  isDerangement (id <$> participants) shuffledIds = true ->
  checks_pass participants (pair_up (id <$> participants) shuffledIds).
Proof.
  intros Hnd Hperm Hder.
  pose proof (Permutation_length Hperm) as Hlen.
  pose proof (pair_up_givers (id <$> participants) shuffledIds) as Hgivers.
  pose proof (pair_up_receivers _ _ Hlen) as Hreceivers.
  unfold checks_pass. rewrite Hgivers, Hreceivers.
  split; [|split; [|split; [|split; [|split]]]].
  - unfold pair_up. by rewrite length_imap, length_fmap.
  - intros a Ha. split.
    + assert (giverId a ∈ id <$> participants) as Hin
          by (rewrite <- Hgivers; by apply list_elem_of_fmap_2).
      apply list_elem_of_fmap in Hin. naive_solver.
    + assert (receiverId a ∈ id <$> participants) as Hin.
      { rewrite <- Hperm, <- Hreceivers. by apply list_elem_of_fmap_2. }
      apply list_elem_of_fmap in Hin. naive_solver.
  - intros a (k & Hk)%list_elem_of_lookup_1 Heq.
    by apply (pair_up_no_fixed_point _ _ _ _ Hlen Hder Hk).
  - split; [done | by rewrite Hperm].
  - rewrite size_list_to_set by done. by rewrite length_fmap.
  - rewrite size_list_to_set by (by rewrite Hperm).
    by rewrite Hlen, length_fmap.
Qed.

(** ** [validateAssignments] on decoded data *)

Section DynamicFacts.
Import Dynamic.

Lemma models_empty : models [] ∅.
Proof. exists []. split; [done|]. split; [constructor | done]. Qed.

Lemma Set_has_strings l x :
  Set_has (JString <$> l) (JString x) = bool_decide (x ∈ l).
Proof.
  unfold Set_has. induction l as [|y l IH]; [done|].
  rewrite fmap_cons. cbn [existsb strict_equal]. rewrite IH.
  destruct (decide (x = y)) as [->|Hne].
  - rewrite bool_decide_true by done. symmetry. apply bool_decide_true. left.
  - rewrite (bool_decide_false (x = y)) by done. simpl.
    apply bool_decide_ext. set_solver.
Qed.

Lemma Set_has_models s G x :
  models s G -> Set_has s (JString x) = bool_decide (x ∈ G).
Proof.
  intros (l & -> & _ & ->). rewrite Set_has_strings.
  apply bool_decide_ext. by rewrite elem_of_list_to_set.
Qed.

Lemma Set_add_models s G x :
  models s G -> models (Set_add s (JString x)) ({[x]} ∪ G).
Proof.
  intros Hm. unfold Set_add. rewrite (Set_has_models s G x Hm).
  destruct Hm as (l & -> & Hnd & ->). case_bool_decide as Hin.
  - exists l. repeat split; [done|]. set_solver.
  - exists (l ++ [x]). rewrite fmap_app. repeat split.
    + apply NoDup_app. repeat split; [done| |apply NoDup_singleton].
      intros y Hy ->%list_elem_of_singleton. apply Hin.
      by apply elem_of_list_to_set.
    + rewrite list_to_set_app_L. set_solver.
Qed.

Lemma new_Set_models l : models (new_Set (JString <$> l)) (list_to_set l).
Proof.
  unfold new_Set.
  assert (forall s G, models s G ->
            models (foldl Set_add s (JString <$> l)) (list_to_set l ∪ G)) as H.
  { induction l as [|x l IH]; intros s G Hm; simpl.
    - by rewrite (left_id_L ∅ (∪)).
    - replace ({[x]} ∪ list_to_set l ∪ G)
        with (list_to_set l ∪ ({[x]} ∪ G) : gset string) by set_solver.
      apply IH. by apply Set_add_models. }
  specialize (H [] ∅ models_empty). by rewrite (right_id_L ∅ (∪)) in H.
Qed.

Lemma Set_size_models s G :
  models s G -> Set_size s = JNumber (Z.of_nat (size G)).
Proof.
  intros (l & -> & Hnd & ->). unfold Set_size.
  by rewrite length_fmap, size_list_to_set.
Qed.

Lemma map_id_typed participants :
  map_id (of_participant <$> participants) =
  Normal (JString <$> (id <$> participants)).
Proof.
  induction participants as [|p ps IH]; [done|].
  rewrite !fmap_cons. cbn [map_id]. rewrite IH. reflexivity.
Qed.

(** On well-typed data the two loops do the same. *)
Lemma validate_loop_typed P pids Gs G Rs R assignments :
  models P pids -> models Gs G -> models Rs R ->
  match Derangement.validate_loop pids G R assignments with
  | None =>
      Dynamic.validate_loop P Gs Rs (of_assignment <$> assignments)
      = Normal None
  | Some (G', R') =>
      exists Gs' Rs',
        Dynamic.validate_loop P Gs Rs (of_assignment <$> assignments)
        = Normal (Some (Gs', Rs')) /\ models Gs' G' /\ models Rs' R'
  end.
Proof.
  intros HP. revert Gs G Rs R.
  induction assignments as [|a rest IH]; intros Gs G Rs R HG HR.
  - simpl. by exists Gs, Rs.
  - rewrite fmap_cons. cbn [Derangement.validate_loop Dynamic.validate_loop].
    change (get (of_assignment a) key_giverId)
      with (Normal (JString (giverId a))).
    change (get (of_assignment a) key_receiverId)
      with (Normal (JString (receiverId a))).
    cbn [and_then strict_equal].
    rewrite !(Set_has_models P pids) by done.
    rewrite (Set_has_models Gs G) by done.
    rewrite (Set_has_models Rs R) by done.
    destruct (bool_decide (giverId a ∈ pids)); [|done].
    destruct (bool_decide (receiverId a ∈ pids)); [|done]. simpl.
    destruct (bool_decide (giverId a = receiverId a)); [done|].
    destruct (bool_decide (giverId a ∈ G)); [done|].
    destruct (bool_decide (receiverId a ∈ R)); [done|]. simpl.
    apply IH; by apply Set_add_models.
Qed.

Lemma validateAssignments_typed participants assignments :
  Dynamic.validateAssignments (JArray (of_participant <$> participants))
                              (JArray (of_assignment <$> assignments))
  = Normal (JBoolean (Derangement.validateAssignments participants assignments)).
Proof.
  unfold Dynamic.validateAssignments, Derangement.validateAssignments.
  cbn [get and_then strict_equal call_map_id iterate].
  rewrite !length_fmap.
  destruct (decide (length assignments = length participants)) as [Hlen|Hlen];
    cycle 1.
  { rewrite !bool_decide_false; [done | done | lia]. }
  rewrite !bool_decide_true by (done || lia). cbn [negb].
  rewrite map_id_typed. cbn [and_then].
  pose proof (validate_loop_typed _ _ [] ∅ [] ∅ assignments
                (new_Set_models (id <$> participants))
                models_empty models_empty) as Hloop.
  destruct (Derangement.validate_loop _ ∅ ∅ assignments) as [[G' R']|].
  - destruct Hloop as (Gs' & Rs' & -> & HG & HR). cbn [and_then].
    rewrite (Set_size_models _ _ HG), (Set_size_models _ _ HR).
    do 2 f_equal. f_equal; apply bool_decide_ext; lia.
  - by rewrite Hloop.
Qed.
End DynamicFacts.

Section DynamicTotality.
Import Dynamic.

Lemma get_total v k : is_nullish v = false -> exists x, get v k = Normal x.
Proof. destruct v, k; simpl; intros; try done; eauto. Qed.

Lemma map_id_total items :
  Forall (fun v => is_nullish v = false) items ->
  exists ids, map_id items = Normal ids.
Proof.
  induction 1 as [|p rest Hp _ [ids IH]]; [by exists []|].
  destruct (get_total p key_id Hp) as [v Hv].
  exists (v :: ids). cbn [map_id]. by rewrite Hv, IH.
Qed.

Lemma validate_loop_total P Gs Rs items :
  Forall (fun v => is_nullish v = false) items ->
  exists r, Dynamic.validate_loop P Gs Rs items = Normal r.
Proof.
  intros Hall. revert Gs Rs.
  induction Hall as [|item rest Hitem _ IH]; intros Gs Rs; [by eexists|].
  destruct (get_total item key_giverId Hitem) as [g Hg].
  destruct (get_total item key_receiverId Hitem) as [r Hr].
  cbn [Dynamic.validate_loop]. rewrite Hg. cbn [and_then].
  destruct (negb (Set_has P g)); [by eexists|].
  rewrite Hr. cbn [and_then].
  destruct (negb (Set_has P r)); [by eexists|].
  destruct (strict_equal g r); [by eexists|].
  destruct (Set_has Gs g || Set_has Rs r); [by eexists|].
  apply IH.
Qed.

Lemma validateAssignments_total participants items :
  Forall (fun v => is_nullish v = false) participants ->
  Forall (fun v => is_nullish v = false) items ->
  exists b, Dynamic.validateAssignments (JArray participants) (JArray items)
            = Normal (JBoolean b).
Proof.
  intros Hps Hitems. unfold Dynamic.validateAssignments.
  cbn [get and_then].
  destruct (negb (strict_equal _ _)); [by eexists|].
  destruct (map_id_total participants Hps) as [ids Hids].
  cbn [call_map_id iterate]. rewrite Hids. cbn [and_then].
  destruct (validate_loop_total (new_Set ids) [] [] items Hitems) as [r ->].
  cbn [and_then]. destruct r as [[Gs Rs]|]; by eexists.
Qed.

Lemma Set_has_not_string l v :
  is_string v = false -> Set_has (JString <$> l) v = false.
Proof.
  intros Hv. unfold Set_has. induction l as [|x l IH]; [done|].
  rewrite fmap_cons. cbn [existsb]. rewrite IH. by destruct v.
Qed.

(** Known ids being strings, one entry without two string fields is
    enough for the loop to return [false], wherever it stands. *)
Lemma validate_loop_rejects l Gs Rs items :
  Forall (fun v => is_nullish v = false) items ->
  Exists (fun item => has_string_fields item = false) items ->
  Dynamic.validate_loop (JString <$> l) Gs Rs items = Normal None.
Proof.
  intros Hall. revert Gs Rs.
  induction Hall as [|item rest Hitem _ IH]; intros Gs Rs Hex.
  { by apply Exists_nil in Hex. }
  destruct (get_total item key_giverId Hitem) as [g Hg].
  destruct (get_total item key_receiverId Hitem) as [r Hr].
  cbn [Dynamic.validate_loop]. rewrite Hg. cbn [and_then].
  destruct (is_string g) eqn:Hsg; cycle 1.
  { by rewrite Set_has_not_string. }
  destruct (negb (Set_has (JString <$> l) g)); [done|].
  rewrite Hr. cbn [and_then].
  destruct (is_string r) eqn:Hsr; cycle 1.
  { by rewrite Set_has_not_string. }
  destruct (negb (Set_has (JString <$> l) r)); [done|].
  destruct (strict_equal g r); [done|].
  destruct (Set_has Gs g || Set_has Rs r); [done|].
  apply IH. apply Exists_cons in Hex as [Hbad|Hex]; [|done].
  unfold has_string_fields in Hbad. by rewrite Hg, Hr, Hsg, Hsr in Hbad.
Qed.

Lemma validateAssignments_rejects participants items :
  Forall (fun v => is_nullish v = false) items ->
  Exists (fun item => has_string_fields item = false) items ->
  Dynamic.validateAssignments (JArray (of_participant <$> participants))
                              (JArray items)
  = Normal (JBoolean false).
Proof.
  intros Hall Hex. unfold Dynamic.validateAssignments.
  cbn [get and_then].
  destruct (negb (strict_equal _ _)); [done|].
  cbn [call_map_id iterate]. rewrite map_id_typed. cbn [and_then].
  destruct (new_Set_models (id <$> participants)) as (l & -> & _ & _).
  by rewrite validate_loop_rejects.
Qed.
End DynamicTotality.

(** * The claims *)

Lemma validateAssignments_false participants assignments :
  ~ checks_pass participants assignments ->
  validateAssignments participants assignments = false.
Proof.
  intros Hno. apply not_true_is_false.
  by rewrite validateAssignments_true.
Qed.

(** C1. [validateAssignments] returns [true] exactly when the five checks
    hold: equal lengths; every giver and receiver is the id of some
    participant; nobody gives to themselves; no giver and no receiver
    repeats; and the distinct givers and the distinct receivers both number
    [participants.length].  For three participants [A], [B], [C] with
    distinct ids, the cycle A→B, B→C, C→A is accepted, and it is rejected
    once one assignment is turned into A→A, once a receiver is duplicated
    (A→B, B→B, C→A), once any one assignment is dropped, and whenever an
    assignment mentions an id that is none of theirs. *)
Theorem validateAssignments_iff_checks
        (participants : list Participant) (assignments : list Assignment)
        (A B C : Participant) (unknown : string)
        (Hdistinct : NoDup [id A; id B; id C])
        (Hunknown : unknown ∉ [id A; id B; id C]) :
  (validateAssignments participants assignments = true <->
   checks_pass participants assignments) /\
  validateAssignments [A; B; C] [gives A B; gives B C; gives C A] = true /\
  validateAssignments [A; B; C] [gives A A; gives B C; gives C A] = false /\
  validateAssignments [A; B; C] [gives A B; gives B B; gives C A] = false /\
  validateAssignments [A; B; C] [gives B C; gives C A] = false /\
  validateAssignments [A; B; C] [gives A B; gives C A] = false /\
  validateAssignments [A; B; C] [gives A B; gives B C] = false /\
  (forall tampered a,
      a ∈ tampered -> giverId a = unknown \/ receiverId a = unknown ->
      validateAssignments [A; B; C] tampered = false).
Proof.
  split; [apply validateAssignments_true|].
  split.
  { apply validateAssignments_true. unfold checks_pass, gives. simpl.
    assert (NoDup [id B; id C; id A]) as Hrot.
    { by rewrite (Permutation_app_comm [id B; id C] [id A]). }
    split; [done|]. split; [|split; [|split; [by split|]]].
    - intros a Ha. rewrite !elem_of_cons, elem_of_nil in Ha.
      destruct Ha as [->|[->|[->|[]]]]; simpl;
        split; eexists; (split; [|reflexivity]); set_solver.
    - intros a Ha. rewrite !elem_of_cons, elem_of_nil in Ha.
      apply NoDup_cons in Hdistinct as [HA Hdistinct].
      apply NoDup_cons in Hdistinct as [HB _].
      destruct Ha as [->|[->|[->|[]]]]; simpl; set_solver.
    - change (size (list_to_set [id A; id B; id C] : gset string) = 3 /\
              size (list_to_set [id B; id C; id A] : gset string) = 3).
      by rewrite !size_list_to_set. }
  split.
  { apply validateAssignments_false. intros (_ & _ & Hself & _).
    by apply (Hself (gives A A)); [left|]. }
  split.
  { apply validateAssignments_false. intros (_ & _ & Hself & _).
    by apply (Hself (gives B B)); [right; left|]. }
  do 3 (split; [done|]).
  intros tampered a Ha Hbad. apply validateAssignments_false.
  intros (_ & Hmem & _). destruct (Hmem a Ha) as [(p & Hp & Hg) (q & Hq & Hr)].
  apply Hunknown. destruct Hbad as [<-|<-].
  - rewrite Hg. rewrite !elem_of_cons, elem_of_nil in Hp. set_solver.
  - rewrite Hr. rewrite !elem_of_cons, elem_of_nil in Hq. set_solver.
Qed.

Lemma validateAssignments_iff_checks_witness :
  let A := mkParticipant "a" "Ada" in
  let B := mkParticipant "b" "Bob" in
  let C := mkParticipant "c" "Cy" in
  NoDup [id A; id B; id C] /\ ("zed" ∉ [id A; id B; id C]) /\
  validateAssignments [A; B; C] [gives A B; gives B C; gives C A] = true /\
  validateAssignments [A; B; C]
    [mkAssignment "a" "b"; mkAssignment "b" "c"; mkAssignment "c" "zed"]
  = false.
Proof.
  intros A B C.
  assert (NoDup [id A; id B; id C]) as Hdistinct by compute_done.
  assert ("zed" ∉ [id A; id B; id C]) as Hunknown by compute_done.
  destruct (validateAssignments_iff_checks [] [] A B C "zed"
              Hdistinct Hunknown)
    as (_ & Hcycle & _ & _ & _ & _ & _ & Hreject).
  split; [done|]. split; [done|]. split; [done|].
  apply (Hreject _ (mkAssignment "c" "zed")).
  - compute_done.
  - right. reflexivity.
Defined.

(** C2. A successful draw lists the givers in the order of the
    participants, its receivers are a rearrangement of the participant
    ids, and at no position does the receiver equal the giver. *)
Theorem generateDerangement_is_derangement
        (participants : list Participant) (maxAttempts : nat) (w : World)
        (assignments : list Assignment)
        (Hsuccess : (generateDerangement participants maxAttempts w).1
                    = Some assignments) :
  giverId <$> assignments = id <$> participants /\
  receiverId <$> assignments ≡ₚ id <$> participants /\
  (forall k a, assignments !! k = Some a -> receiverId a <> giverId a).
Proof.
  apply generateDerangement_Some in Hsuccess
    as (shuffledIds & Hperm & Hder & ->).
  pose proof (Permutation_length Hperm) as Hlen.
  split; [apply pair_up_givers|]. split.
  - by rewrite pair_up_receivers.
  - intros k a. by apply pair_up_no_fixed_point.
Qed.

Lemma generateDerangement_is_derangement_witness :
  let participants := [mkParticipant "a" "Ada"; mkParticipant "b" "Bob";
                       mkParticipant "c" "Cy"] in
  let assignments := [mkAssignment "a" "b"; mkAssignment "b" "c";
                      mkAssignment "c" "a"] in
  (generateDerangement participants 1000 (tape [])).1 = Some assignments /\
  giverId <$> assignments = id <$> participants /\
  receiverId <$> assignments ≡ₚ id <$> participants /\
  (forall k a, assignments !! k = Some a -> receiverId a <> giverId a).
Proof.
  intros participants assignments.
  assert ((generateDerangement participants 1000 (tape [])).1
          = Some assignments) as Hrun by (vm_compute; reflexivity).
  split; [exact Hrun|].
  exact (generateDerangement_is_derangement participants 1000 (tape [])
                                            assignments Hrun).
Defined.

(** C3. Whatever a successful draw returns for participants with pairwise
    distinct ids, the validator accepts. *)
Theorem validateAssignments_accepts_generated
        (participants : list Participant) (maxAttempts : nat) (w : World)
        (assignments : list Assignment)
        (Hdistinct : NoDup (id <$> participants))
        (Hsuccess : (generateDerangement participants maxAttempts w).1
                    = Some assignments) :
  validateAssignments participants assignments = true.
Proof.
  apply generateDerangement_Some in Hsuccess
    as (shuffledIds & Hperm & Hder & ->).
  apply validateAssignments_true. by apply pair_up_checks_pass.
Qed.

Lemma validateAssignments_accepts_generated_witness :
  let participants := [mkParticipant "a" "Ada"; mkParticipant "b" "Bob";
                       mkParticipant "c" "Cy"; mkParticipant "d" "Dee"] in
  let assignments := [mkAssignment "a" "b"; mkAssignment "b" "c";
                      mkAssignment "c" "d"; mkAssignment "d" "a"] in
  NoDup (id <$> participants) /\
  (generateDerangement participants 1000 (tape [])).1 = Some assignments /\
  validateAssignments participants assignments = true.
Proof.
  intros participants assignments.
  assert (NoDup (id <$> participants)) as Hdistinct by compute_done.
  assert ((generateDerangement participants 1000 (tape [])).1
          = Some assignments) as Hrun by (vm_compute; reflexivity).
  split; [exact Hdistinct|]. split; [exact Hrun|].
  exact (validateAssignments_accepts_generated participants 1000 (tape [])
                                               assignments Hdistinct Hrun).
Defined.

(** C4. With fewer than two participants the generator refuses: it
    returns [null] at once, having written the "need at least 2
    participants" error to the console and made no draw. *)
Theorem generateDerangement_refuses_small
        (participants : list Participant) (maxAttempts : nat) (w : World)
        (Hsmall : length participants < 2) :
  generateDerangement participants maxAttempts w =
    (None, logged insufficient_line w).
Proof. by apply generateDerangement_insufficient. Qed.

Lemma generateDerangement_refuses_small_witness :
  length [mkParticipant "a" "Ada"] < 2 /\
  generateDerangement [mkParticipant "a" "Ada"] 1000 (tape [3; 1]) =
    (None, logged insufficient_line (tape [3; 1])).
Proof.
  assert (length [mkParticipant "a" "Ada"] < 2) as Hsmall by (simpl; lia).
  split; [exact Hsmall|].
  exact (generateDerangement_refuses_small [mkParticipant "a" "Ada"] 1000
                                           (tape [3; 1]) Hsmall).
Defined.

(** C9. The validator accepts nothing for participants whose ids are not
    pairwise distinct: acceptance needs as many distinct givers as there
    are participants, all of them known ids. *)
Theorem validateAssignments_needs_distinct_ids
        (participants : list Participant) (assignments : list Assignment) :
  (validateAssignments participants assignments = true ->
   NoDup (id <$> participants)) /\
  (~ NoDup (id <$> participants) ->
   validateAssignments participants assignments = false).
Proof.
  assert (validateAssignments participants assignments = true ->
          NoDup (id <$> participants)) as Himp.
  { intros Hvalid%validateAssignments_true.
    by eapply checks_pass_NoDup_ids. }
  split; [done|]. intros Hdup. apply not_true_is_false. tauto.
Qed.

Lemma validateAssignments_needs_distinct_ids_witness :
  let twins := [mkParticipant "a" "Ada"; mkParticipant "a" "Alf"] in
  let assignments := [mkAssignment "a" "a"; mkAssignment "a" "a"] in
  ~ NoDup (id <$> twins) /\ validateAssignments twins assignments = false.
Proof.
  intros twins assignments.
  assert (~ NoDup (id <$> twins)) as Hdup by compute_done.
  split; [exact Hdup|].
  exact (proj2 (validateAssignments_needs_distinct_ids twins assignments)
               Hdup).
Defined.

(** C10. The validator accepts the empty assignment list for the empty
    participant list, although the generator refuses to draw for fewer than
    two participants. *)
Theorem validateAssignments_accepts_empty :
  validateAssignments [] [] = true /\
  (forall maxAttempts w, (generateDerangement [] maxAttempts w).1 = None).
Proof. split; [by vm_compute | done]. Qed.

(** C5 (as amended).  With two participants or more the generator makes at
    most [maxAttempts] shuffle attempts, each of [participants.length - 1]
    draws.  It returns [null] exactly when none of these attempts is a
    derangement, and then it has made all [maxAttempts] attempts and written
    the "failed to generate" error to the console.  The value returned is
    the same [null] as for fewer than two participants; the two failures
    differ in the console line only. *)
Theorem generateDerangement_attempt_budget
        (participants : list Participant) (maxAttempts : nat) (w : World)
        (Hlen : 2 <= length participants) :
  let run := generateDerangement participants maxAttempts w in
  (exists attempts,
      attempts <= maxAttempts /\
      entropy run.2 = entropy w /\
      cursor run.2 = cursor w + attempts * (length participants - 1)) /\
  (run.1 = None <-> exhausted participants maxAttempts w) /\
  (exhausted participants maxAttempts w ->
   run = (None, logged (exhausted_line maxAttempts)
                       (advance (maxAttempts * (length participants - 1)) w))) /\
  (forall participants' maxAttempts' w',
      length participants' < 2 ->
      generateDerangement participants' maxAttempts' w'
      = (None, logged insufficient_line w')) /\
  exhausted_line maxAttempts <> insufficient_line.
Proof.
  intros run. unfold exhausted.
  pose proof (generateDerangement_spec participants maxAttempts w Hlen) as Hspec.
  cbn zeta in Hspec. rewrite length_fmap in Hspec. fold run in Hspec.
  split; [|split; [|split; [|split]]].
  - destruct Hspec as [[_ ->]|(k & Hk & _ & _ & ->)].
    + exists maxAttempts. by repeat split.
    + exists (S k). repeat split; [lia|done..].
  - destruct Hspec as [[Hall ->]|(k & Hk & _ & Hat & ->)]; [done|].
    split; [done|]. intros Hall. rewrite Hall in Hat by done. done.
  - intros Hall.
    destruct Hspec as [[_ ->]|(k & Hk & _ & Hat & _)]; [done|].
    rewrite Hall in Hat by done. done.
  - intros. by apply generateDerangement_insufficient.
  - unfold exhausted_line, insufficient_line. simpl. discriminate.
Qed.

Lemma generateDerangement_attempt_budget_witness :
  let participants := [mkParticipant "x" "Xe"; mkParticipant "y" "Yu"] in
  2 <= length participants /\
  generateDerangement participants 3 (tape [1; 1; 1; 0]) =
    (None, logged (exhausted_line 3) (advance 3 (tape [1; 1; 1; 0]))).
Proof.
  intros participants.
  assert (2 <= length participants) as Hlen by (simpl; lia).
  split; [exact Hlen|].
  apply (generateDerangement_attempt_budget participants 3
           (tape [1; 1; 1; 0]) Hlen).
  intros k Hk.
  destruct k as [|[|[|k]]]; [reflexivity..|lia].
Defined.

(** C5, as first stated, fails: the caller cannot tell the two failures
    apart by what the call returns.  A draw for two participants in which
    each of the 1000 attempts leaves the ids in place returns the same
    [null] as a refused draw for one participant. *)
Lemma exhausted_returns_the_same_null :
  ~ (forall participants participants' maxAttempts w w',
        2 <= length participants -> length participants' < 2 ->
        exhausted participants maxAttempts w ->
        (generateDerangement participants maxAttempts w).1
        <> (generateDerangement participants' maxAttempts w').1).
Proof.
  intros Hclaim.
  apply (Hclaim [mkParticipant "x" "Xe"; mkParticipant "y" "Yu"]
                [mkParticipant "x" "Xe"]
                defaultMaxAttempts
                (mkWorld (fun _ => 1) 0 []) (mkWorld (fun _ => 1) 0 [])).
  - simpl. lia.
  - simpl. lia.
  - intros k _. reflexivity.
  - vm_compute. reflexivity.
Qed.

(** C8 (as amended).  For two participants with distinct ids the generator
    returns the swap X→Y, Y→X as soon as one of its first [maxAttempts]
    draws picks index 0, and [null] when all of them pick index 1; it
    returns nothing else. *)
Theorem generateDerangement_two_participants
        (X Y : Participant) (maxAttempts : nat) (w : World)
        (Hdistinct : id X <> id Y) :
  (generateDerangement [X; Y] maxAttempts w).1 =
    if existsb (fun k => (entropy w (cursor w + k) mod 2 =? 0)%nat)
               (seq 0 maxAttempts)
    then Some [gives X Y; gives Y X]
    else None.
Proof.
  destruct (isDerangement_two (id X) (id Y) Hdistinct) as [Hswap Hsame].
  destruct (generateDerangement_spec [X; Y] maxAttempts w)
    as [[Hall ->]|(k & Hk & _ & Hat & ->)]; [simpl; lia| |]; cbn [fst].
  - destruct (existsb _ _) eqn:Hsome; [|done].
    apply existsb_exists in Hsome as (k & [_ Hk]%in_seq & Hdraw).
    specialize (Hall k ltac:(lia)). simpl in Hall.
    rewrite nth_shuffle_two, Hdraw in Hall. congruence.
  - simpl in Hat |- *. rewrite nth_shuffle_two in *.
    destruct (entropy w (cursor w + k) mod 2 =? 0)%nat eqn:Hdraw;
      [|congruence].
    destruct (existsb _ _) eqn:Hsome; [done|].
    apply not_true_iff_false in Hsome. destruct Hsome.
    apply existsb_exists. exists k. split; [apply in_seq; lia | done].
Qed.

Lemma generateDerangement_two_participants_witness :
  let X := mkParticipant "x" "Xe" in
  let Y := mkParticipant "y" "Yu" in
  id X <> id Y /\
  (generateDerangement [X; Y] 1000 (tape [1; 1; 4])).1
  = Some [gives X Y; gives Y X].
Proof.
  intros X Y.
  assert (id X <> id Y) as Hdistinct by (simpl; discriminate).
  split; [exact Hdistinct|].
  exact (generateDerangement_two_participants X Y 1000 (tape [1; 1; 4])
                                              Hdistinct).
Defined.

(** C8, as first stated, fails: the draw for two participants does not
    always return the swap.  When every draw of the 1000 attempts picks
    index 1, each shuffle leaves the two ids in place and the call returns
    [null]. *)
Lemma generateDerangement_two_can_fail :
  ~ (forall (X Y : Participant) (w : World),
        id X <> id Y ->
        (generateDerangement [X; Y] defaultMaxAttempts w).1
        = Some [gives X Y; gives Y X]).
Proof.
  intros Hclaim.
  specialize (Hclaim (mkParticipant "x" "Xe") (mkParticipant "y" "Yu")
                     (mkWorld (fun _ => 1) 0 [])).
  assert ((generateDerangement
             [mkParticipant "x" "Xe"; mkParticipant "y" "Yu"]
             defaultMaxAttempts (mkWorld (fun _ => 1) 0 [])).1 = None)
    as Hnull by (vm_compute; reflexivity).
  rewrite Hnull in Hclaim. discriminate Hclaim. simpl. discriminate.
Qed.

(** C6. [shuffle] is the Fisher-Yates shuffle.  It starts at the last
    index; at an index [i > 0] it draws [j] in [0, i], swaps the cells [i]
    and [j] and goes on with [i - 1]; it stops at index 0.  Its result is a
    rearrangement of its input.  With the draws laid out as a choice
    sequence (one [j <= i] for each [i] from the last index down to 1),
    every permutation [π] of the positions is produced by exactly one
    choice sequence: cell [k] of the result then holds cell [π k] of the
    input, whatever the input holds.  For an input without repeated
    elements this reads: every rearrangement of it is the result of
    exactly one choice sequence. *)
Theorem shuffle_is_fisher_yates (n : nat) (π : list nat)
        (Hπ : π ≡ₚ seq 0 n) :
  (forall T (array : list T) w,
      shuffle array w = shuffle_loop (length array - 1) array w) /\
  (forall T (result : list T) w, shuffle_loop 0 result w = (result, w)) /\
  (forall T i (result : list T) w,
      let j := entropy w (cursor w) mod (S i + 1) in
      j <= S i /\
      shuffle_loop (S i) result w =
        shuffle_loop i (swap (S i) j result) (advance 1 w)) /\
  (forall T i j (result : list T) k,
      i < length result -> j <= i ->
      swap i j result !! k =
        if decide (k = j) then result !! i
        else if decide (k = i) then result !! j
        else result !! k) /\
  (forall T (array : list T) w, (shuffle array w).1 ≡ₚ array) /\
  (exists! js,
      valid_choices (n - 1) js = true /\
      forall T (array : list T) w,
        length array = n -> feeds w js ->
        Some <$> (shuffle array w).1 = (array !!.) <$> π) /\
  (forall T (array rearranged : list T),
      NoDup array -> rearranged ≡ₚ array ->
      exists! js,
        valid_choices (length array - 1) js = true /\
        forall w, feeds w js -> (shuffle array w).1 = rearranged).
Proof.
  split; [done|]. split; [done|]. split.
  { intros T i result w j. split; [|apply shuffle_loop_step].
    pose proof (Nat.mod_upper_bound (entropy w (cursor w)) (S i + 1)).
    unfold j. lia. }
  split.
  { intros T i j result k Hi Hj. apply swap_lookup; lia. }
  split; [intros; apply shuffle_Permutation|].
  split.
  - destruct (shuffle_reaches (seq 0 n) π (NoDup_seq 0 n) Hπ)
      as (js & Hvalid & Hrun).
    rewrite length_seq in Hvalid.
    exists js. split; [split; [done|]|].
    + intros T array w <- Hfeeds.
      by rewrite shuffle_positions, (Hrun w Hfeeds).
    + intros js' [Hvalid' Hrun'].
      specialize (Hrun' nat (seq 0 n) (tape js')
                        (length_seq n 0) (feeds_tape js')).
      assert ((seq 0 n !!.) <$> π = Some <$> π) as Hread.
      { apply list_fmap_ext. intros k x Hx. apply lookup_seq_lt.
        assert (x ∈ seq 0 n) as Hin.
        { rewrite <- Hπ. by eapply list_elem_of_lookup_2. }
        apply elem_of_seq in Hin. lia. }
      rewrite Hread in Hrun'. apply (inj (fmap Some)) in Hrun'.
      apply (shuffle_choices_inj (seq 0 n) js js' (tape js) (tape js'));
        try done; [apply NoDup_seq | by rewrite length_seq..
                  | apply feeds_tape | apply feeds_tape |].
      by rewrite Hrun', (Hrun _ (feeds_tape js)).
  - intros T array rearranged Hnd Hperm.
    destruct (shuffle_reaches array rearranged Hnd Hperm)
      as (js & Hvalid & Hrun).
    exists js. split; [done|]. intros js' [Hvalid' Hrun'].
    apply (shuffle_choices_inj array js js' (tape js) (tape js'));
      try done; [apply feeds_tape | apply feeds_tape |].
    by rewrite (Hrun _ (feeds_tape js)), (Hrun' _ (feeds_tape js')).
Qed.

Lemma shuffle_is_fisher_yates_witness :
  [2; 0; 1] ≡ₚ seq 0 3 /\
  exists! js,
    valid_choices 2 js = true /\
    forall T (array : list T) w,
      length array = 3 -> feeds w js ->
      Some <$> (shuffle array w).1 = (array !!.) <$> [2; 0; 1].
Proof.
  assert ([2; 0; 1] ≡ₚ seq 0 3) as Hperm by compute_done.
  split; [exact Hperm|].
  exact (proj1 (proj2 (proj2 (proj2 (proj2 (proj2
           (shuffle_is_fisher_yates 3 [2; 0; 1] Hperm))))))).
Defined.

(** C7 (as amended).  On decoded data [validateAssignments] returns a
    boolean and does not throw whenever both arguments are arrays none of
    whose entries is [null] or [undefined].  Given well-typed participants,
    such an assignments array is rejected ([false]) as soon as one entry
    lacks a [giverId] or a [receiverId] or holds something other than a
    string there.  On well-typed data it returns what the typed function
    returns. *)
Theorem validateAssignments_total_on_arrays
        (decoded_participants items : list Dynamic.JSValue)
        (participants : list Participant) (assignments : list Assignment)
        (Hparticipants :
           Forall (fun v => is_nullish v = false) decoded_participants)
        (Hitems : Forall (fun v => is_nullish v = false) items) :
  (exists b,
      Dynamic.validateAssignments (Dynamic.JArray decoded_participants)
                                  (Dynamic.JArray items)
      = Dynamic.Normal (Dynamic.JBoolean b)) /\
  (Exists (fun item => has_string_fields item = false) items ->
   Dynamic.validateAssignments
     (Dynamic.JArray (Dynamic.of_participant <$> participants))
     (Dynamic.JArray items)
   = Dynamic.Normal (Dynamic.JBoolean false)) /\
  Dynamic.validateAssignments
    (Dynamic.JArray (Dynamic.of_participant <$> participants))
    (Dynamic.JArray (Dynamic.of_assignment <$> assignments))
  = Dynamic.Normal
      (Dynamic.JBoolean (validateAssignments participants assignments)).
Proof.
  split; [by apply validateAssignments_total|].
  split; [by apply validateAssignments_rejects|].
  apply validateAssignments_typed.
Qed.

Lemma validateAssignments_total_on_arrays_witness :
  let participants := [mkParticipant "a" "Ada"; mkParticipant "b" "Bob"] in
  let items :=
    [Dynamic.of_assignment (mkAssignment "a" "b");
     Dynamic.JObject [("giverId", Dynamic.JString "b");
                      ("receiverId", Dynamic.JNumber 7)]] in
  Forall (fun v => is_nullish v = false) items /\
  Exists (fun item => has_string_fields item = false) items /\
  Dynamic.validateAssignments
    (Dynamic.JArray (Dynamic.of_participant <$> participants))
    (Dynamic.JArray items)
  = Dynamic.Normal (Dynamic.JBoolean false).
Proof.
  intros participants items.
  assert (Forall (fun v => is_nullish v = false) items) as Hitems.
  { repeat constructor. }
  assert (Exists (fun item => has_string_fields item = false) items) as Hbad.
  { right. left. reflexivity. }
  split; [exact Hitems|]. split; [exact Hbad|].
  exact (proj1 (proj2 (validateAssignments_total_on_arrays
                         [] items participants [] (Forall_nil_2 _) Hitems))
               Hbad).
Defined.

(** C7, as first stated, fails: the function throws on some decoded
    input.  An assignments array holding [null] makes the read of
    [assignment.giverId] throw a [TypeError]. *)
Lemma validateAssignments_can_throw :
  ~ (forall participants assignments : Dynamic.JSValue,
        exists b, Dynamic.validateAssignments participants assignments
                  = Dynamic.Normal (Dynamic.JBoolean b)).
Proof.
  intros Hclaim.
  destruct (Hclaim
              (Dynamic.JArray
                 [Dynamic.of_participant (mkParticipant "a" "Ada")])
              (Dynamic.JArray [Dynamic.JNull])) as [b Hb].
  vm_compute in Hb. discriminate Hb.
Qed.

(** * Further properties of utils/derangement.ts *)

Lemma isDerangement_self (l : list string) :
  l <> [] -> isDerangement l l = false.
Proof.
  intros Hne. apply not_true_is_false. rewrite isDerangement_true.
  intros H. destruct l as [|x l]; [done|]. by apply (H 0 x x).
Qed.

(** X1. [isDerangement] answers [true] exactly when no index of
    [original] holds the same id in [shuffled]; indices past the end of
    [shuffled] never count as the same.  So the empty array is a
    derangement of anything, and no other array is a derangement of
    itself. *)
Theorem isDerangement_no_fixed_point (original shuffled : list string) :
  (isDerangement original shuffled = true <->
   forall k o, original !! k = Some o -> shuffled !! k <> Some o) /\
  isDerangement [] shuffled = true /\
  (original <> [] -> isDerangement original original = false).
Proof.
  split; [|split; [done | apply isDerangement_self]].
  rewrite isDerangement_true. split.
  - intros H k o Ho Hs. by apply (H k o o).
  - intros H k o s Ho Hs ->. by apply (H k s).
Qed.

Lemma isDerangement_no_fixed_point_witness :
  ["a"; "b"] <> [] /\ isDerangement ["a"; "b"] ["a"; "b"] = false.
Proof.
  assert (["a"; "b"] <> ([] : list string)) as Hne by discriminate.
  split; [exact Hne|].
  exact (proj2 (proj2 (isDerangement_no_fixed_point ["a"; "b"] [])) Hne).
Defined.

(** X2. [shuffle] makes one draw for each index from the last down to 1,
    that is [length - 1] draws (none for an array of at most one element,
    which it returns as it is), and writes nothing to the console. *)
Theorem shuffle_draw_count {T} (array : list T) (w : World) :
  (shuffle array w).2 = advance (length array - 1) w /\
  length (shuffle array w).1 = length array /\
  (length array <= 1 -> shuffle array w = (array, w)).
Proof.
  split; [apply shuffle_world|]. split; [apply shuffle_length|].
  intros Hlen. unfold shuffle.
  by replace (length array - 1) with 0 by lia.
Qed.

Lemma shuffle_draw_count_witness :
  length ["a"] <= 1 /\ shuffle ["a"] (tape [5]) = (["a"], tape [5]).
Proof.
  assert (length ["a"] <= 1) as Hlen by (simpl; lia).
  split; [exact Hlen|].
  exact (proj2 (proj2 (shuffle_draw_count ["a"] (tape [5]))) Hlen).
Defined.

(** X3. When attempt number [k] (from 0) is the first of the
    [maxAttempts] shuffles that is a derangement, [generateDerangement]
    returns the pairing made from that shuffle, has made
    [(k + 1) * (participants.length - 1)] draws, and has logged
    "Derangement generated successfully in k+1 attempts". *)
Theorem generateDerangement_first_success
        (participants : list Participant) (maxAttempts : nat) (w : World)
        (k : nat)
        (Hlen : 2 <= length participants)
        (Hk : k < maxAttempts)
        (Hbefore : forall k', k' < k ->
           isDerangement (id <$> participants)
                         (nth_shuffle (id <$> participants) w k') = false)
        (Hat : isDerangement (id <$> participants)
                             (nth_shuffle (id <$> participants) w k) = true) :
  generateDerangement participants maxAttempts w =
    (Some (pair_up (id <$> participants)
                   (nth_shuffle (id <$> participants) w k)),
     logged (success_line (k + 1))
            (advance (S k * (length participants - 1)) w)).
Proof.
  destruct (generateDerangement_spec participants maxAttempts w Hlen)
    as [[Hall _]|(k0 & Hk0 & Hbefore0 & Hat0 & ->)].
  - rewrite Hall in Hat by done. done.
  - rewrite length_fmap.
    destruct (Nat.lt_trichotomy k k0) as [Hlt|[->|Hgt]]; [|done|].
    + rewrite Hbefore0 in Hat by done. done.
    + rewrite Hbefore in Hat0 by done. done.
Qed.

Lemma generateDerangement_first_success_witness :
  let participants := [mkParticipant "x" "Xe"; mkParticipant "y" "Yu"] in
  let w := tape [1; 1; 0] in
  generateDerangement participants 1000 w =
    (Some [mkAssignment "x" "y"; mkAssignment "y" "x"],
     logged (success_line 3) (advance 3 w)).
Proof.
  intros participants w.
  apply (generateDerangement_first_success participants 1000 w 2).
  - simpl. lia.
  - lia.
  - intros k' Hk'. destruct k' as [|[|k']]; [reflexivity..|lia].
  - reflexivity.
Defined.

(** X4. Participants who all carry one and the same id can never be
    drawn: every shuffle leaves each id facing itself, and
    [generateDerangement] returns [null] whatever the draws and the
    budget. *)
Theorem generateDerangement_same_id_fails
        (participants : list Participant) (maxAttempts : nat) (w : World)
        (x : string)
        (Hsame : forall p, p ∈ participants -> id p = x) :
  (generateDerangement participants maxAttempts w).1 = None.
Proof.
  destruct (generateDerangement participants maxAttempts w).1
    as [assignments|] eqn:Hrun; [|done].
  assert (participants <> []) as Hne.
  { intros ->. by rewrite generateDerangement_insufficient in Hrun
        by (simpl; lia). }
  apply generateDerangement_Some in Hrun as (sh & Hperm & Hder & _).
  assert (replicate (length participants) x = id <$> participants) as Hids.
  { apply replicate_as_elem_of. split; [by rewrite length_fmap|].
    intros y (p & -> & Hp)%list_elem_of_fmap. auto. }
  assert (id <$> participants = sh) as <-.
  { rewrite <- Hids in Hperm |- *. by apply replicate_Permutation. }
  rewrite isDerangement_self in Hder; [done|].
  by destruct participants.
Qed.

Lemma generateDerangement_same_id_fails_witness :
  let twins := [mkParticipant "a" "Ada"; mkParticipant "a" "Alf"] in
  (forall p, p ∈ twins -> id p = "a") /\
  (generateDerangement twins 1000 (tape [0; 1; 0])).1 = None.
Proof.
  intros twins.
  assert (forall p, p ∈ twins -> id p = "a") as Hsame.
  { intros p Hp. unfold twins in Hp.
    rewrite !elem_of_cons, elem_of_nil in Hp.
    destruct Hp as [->|[->|[]]]; reflexivity. }
  split; [exact Hsame|].
  exact (generateDerangement_same_id_fails twins 1000 (tape [0; 1; 0])
                                           "a" Hsame).
Defined.

(** Givers and receivers of an accepted list are rearrangements of the
    participant ids. *)
Lemma checks_pass_columns participants assignments :
  checks_pass participants assignments ->
  giverId <$> assignments ≡ₚ id <$> participants /\
  receiverId <$> assignments ≡ₚ id <$> participants.
Proof.
  intros (Hlen & Hmem & _ & [Hng Hnr] & _). split.
  - apply submseteq_length_Permutation; [|rewrite !length_fmap; lia].
    apply NoDup_submseteq; [done|].
    intros x (a & -> & Ha)%list_elem_of_fmap.
    destruct (Hmem a Ha) as [(p & Hp & ->) _]. by apply list_elem_of_fmap_2.
  - apply submseteq_length_Permutation; [|rewrite !length_fmap; lia].
    apply NoDup_submseteq; [done|].
    intros x (a & -> & Ha)%list_elem_of_fmap.
    destruct (Hmem a Ha) as [_ (p & Hp & ->)]. by apply list_elem_of_fmap_2.
Qed.

Lemma columns_checks_pass participants assignments :
  NoDup (id <$> participants) ->
  giverId <$> assignments ≡ₚ id <$> participants ->
  receiverId <$> assignments ≡ₚ id <$> participants ->
  (forall a, a ∈ assignments -> giverId a <> receiverId a) ->
  checks_pass participants assignments.
Proof.
  intros Hnd Hg Hr Hself.
  assert (length assignments = length participants) as Hlen.
  { apply Permutation_length in Hg. by rewrite !length_fmap in Hg. }
  split; [done|]. split; [|split; [done|split; [|split]]].
  - intros a Ha. split.
    + assert (giverId a ∈ id <$> participants) as Hin
          by (rewrite <- Hg; by apply list_elem_of_fmap_2).
      apply list_elem_of_fmap in Hin. naive_solver.
    + assert (receiverId a ∈ id <$> participants) as Hin
          by (rewrite <- Hr; by apply list_elem_of_fmap_2).
      apply list_elem_of_fmap in Hin. naive_solver.
  - by rewrite Hg, Hr.
  - rewrite size_list_to_set by (by rewrite Hg). by rewrite length_fmap.
  - rewrite size_list_to_set by (by rewrite Hr). by rewrite length_fmap.
Qed.

Lemma validateAssignments_columns participants assignments :
  validateAssignments participants assignments = true <->
  NoDup (id <$> participants) /\
  giverId <$> assignments ≡ₚ id <$> participants /\
  receiverId <$> assignments ≡ₚ id <$> participants /\
  (forall a, a ∈ assignments -> giverId a <> receiverId a).
Proof.
  rewrite validateAssignments_true. split.
  - intros Hpass. split; [by eapply checks_pass_NoDup_ids|].
    destruct (checks_pass_columns _ _ Hpass) as [Hg Hr].
    split; [done|]. split; [done|]. by destruct Hpass as (_ & _ & ? & _).
  - intros (Hnd & Hg & Hr & Hself). by apply columns_checks_pass.
Qed.

(** X5. [validateAssignments] accepts exactly the derangements of the
    participants: the ids are pairwise distinct, the givers are a
    rearrangement of the ids, so are the receivers, and no assignment gives
    to its own giver. *)
Theorem validateAssignments_accepts_exactly_derangements
        (participants : list Participant) (assignments : list Assignment) :
  validateAssignments participants assignments = true <->
  NoDup (id <$> participants) /\
  giverId <$> assignments ≡ₚ id <$> participants /\
  receiverId <$> assignments ≡ₚ id <$> participants /\
  (forall a, a ∈ assignments -> giverId a <> receiverId a).
Proof. apply validateAssignments_columns. Qed.

(** X6. The verdict of [validateAssignments] depends neither on the order
    of the assignments, nor on the order of the participants, nor on their
    names: it is the same for any two participant lists with the same ids
    up to order and any two rearrangements of the assignments. *)
Theorem validateAssignments_order_insensitive
        (participants participants' : list Participant)
        (assignments assignments' : list Assignment)
        (Hparticipants : id <$> participants ≡ₚ id <$> participants')
        (Hassignments : assignments ≡ₚ assignments') :
  validateAssignments participants assignments
  = validateAssignments participants' assignments'.
Proof.
  assert (forall ps ps' (asg asg' : list Assignment),
             id <$> ps ≡ₚ id <$> ps' -> asg ≡ₚ asg' ->
             validateAssignments ps asg = true ->
             validateAssignments ps' asg' = true) as Hone.
  { intros ps ps' asg asg' Hps Hasg.
    rewrite !validateAssignments_columns.
    intros (Hnd & Hg & Hr & Hself).
    split; [by rewrite <- Hps|]. split; [by rewrite <- Hasg, <- Hps|].
    split; [by rewrite <- Hasg, <- Hps|].
    intros a Ha. apply Hself. by rewrite Hasg. }
  destruct (validateAssignments participants assignments) eqn:Hv.
  - symmetry. by eapply Hone.
  - destruct (validateAssignments participants' assignments') eqn:Hv';
      [|done].
    rewrite (Hone participants' participants assignments' assignments)
      in Hv; done.
Qed.

Lemma validateAssignments_order_insensitive_witness :
  let ps := [mkParticipant "a" "Ada"; mkParticipant "b" "Bob";
             mkParticipant "c" "Cy"] in
  let ps' := [mkParticipant "c" "Cyrus"; mkParticipant "a" "A.";
              mkParticipant "b" "B."] in
  let asg := [mkAssignment "a" "b"; mkAssignment "b" "c";
              mkAssignment "c" "a"] in
  let asg' := [mkAssignment "c" "a"; mkAssignment "a" "b";
               mkAssignment "b" "c"] in
  validateAssignments ps asg = validateAssignments ps' asg'.
Proof.
  intros ps ps' asg asg'.
  apply validateAssignments_order_insensitive; compute_done.
Defined.

(** * The store and its storage *)

Section StoreFacts.
Import Store.

Lemma getInitialState_save state env :
  getInitialState (save state env) =
    if loadable state then (reloaded state, save state env)
    else (emptyState,
          mkEnv (world env)
                (warned env ++ ["Invalid stored assignments, resetting..."])
                (Storage.clearState (localStorage (save state env)))).
Proof.
  unfold getInitialState, loadable, reloaded. simpl.
  rewrite list_to_set_elements_L.
  destruct (isDrawComplete state); simpl; [|done].
  destruct (bool_decide (0 < length (assignments state))); simpl; [|done].
  by destruct (validateAssignments _ _).
Qed.

Lemma performDraw_cases state env :
  (isDrawComplete state = true /\
   performDraw state env =
     (false, state, console_warn "Draw already completed" env))
  \/
  (isDrawComplete state = false /\ length (participants state) < 2 /\
   performDraw state env =
     (false, state, console_warn "Need at least 2 participants" env))
  \/
  (isDrawComplete state = false /\ 2 <= length (participants state) /\
   exists w,
     generateDerangement (participants state) defaultMaxAttempts (world env)
     = (None, w) /\
     performDraw state env =
       (false, state,
        mkEnv (logged (console_error_entry
                         "Failed to generate valid assignments") w)
              (warned env) (localStorage env)))
  \/
  (isDrawComplete state = false /\ 2 <= length (participants state) /\
   exists drawn w,
     generateDerangement (participants state) defaultMaxAttempts (world env)
     = (Some drawn, w) /\
     let state' :=
       mkAppState (participants state) drawn (revealedParticipants state)
                  true select (selectedParticipant state)
                  (soundEnabled state) in
     performDraw state env =
       (true, state', save state' (mkEnv w (warned env) (localStorage env)))).
Proof.
  unfold performDraw.
  destruct (isDrawComplete state); [by left|]. right.
  case_bool_decide as Hlen; [left; by repeat split|]. right.
  destruct (generateDerangement _ _ _) as [[drawn|] w].
  - right. repeat split; [lia|]. by exists drawn, w.
  - left. repeat split; [lia|]. by exists w.
Qed.
Lemma performDraw_true_inv
        (state state' : AppState) (env env' : Env)
        (Htrue : performDraw state env = (true, state', env')) :
  isDrawComplete state = false /\
  2 <= length (participants state) /\
  participants state' = participants state /\
  revealedParticipants state' = revealedParticipants state /\
  selectedParticipant state' = selectedParticipant state /\
  soundEnabled state' = soundEnabled state /\
  isDrawComplete state' = true /\
  currentScreen state' = select /\
  localStorage env' = localStorage (save state' env) /\
  giverId <$> assignments state' = id <$> participants state /\
  receiverId <$> assignments state' ≡ₚ id <$> participants state /\
  (forall a, a ∈ assignments state' -> giverId a <> receiverId a) /\
  (NoDup (id <$> participants state) ->
   validateAssignments (participants state') (assignments state') = true).
Proof.
  destruct (performDraw_cases state env)
    as [[Hc Hrun]|[(Hc & Hlen & Hrun)|[(Hc & Hlen & w & Hgen & Hrun)
       |(Hc & Hlen & drawn & w & Hgen & Hrun)]]];
    rewrite Hrun in Htrue; try done.
  cbn zeta in Htrue. injection Htrue as <- <-. simpl.
  assert ((generateDerangement (participants state) defaultMaxAttempts
                               (world env)).1 = Some drawn) as Hsome
      by (by rewrite Hgen).
  apply generateDerangement_Some in Hsome as (sh & Hperm & Hder & ->).
  pose proof (Permutation_length Hperm) as Hshlen.
  do 9 (split; [done|]).
  split; [apply pair_up_givers|].
  split; [by rewrite pair_up_receivers|].
  split.
  - intros a (k & Hk)%list_elem_of_lookup_1 Heq.
    by apply (pair_up_no_fixed_point _ _ _ _ Hshlen Hder Hk).
  - intros Hnd. apply validateAssignments_true.
    by apply pair_up_checks_pass.
Qed.
End StoreFacts.

Section StoreProperties.
Import Store.

(** X7. A draw that is refused (already drawn, or fewer than two
    participants) or that fails (no derangement within the budget) returns
    [false] and changes neither the store nor the storage; a refused draw
    makes no random draw either. *)
Theorem performDraw_false_changes_nothing (state : AppState) (env : Env)
        (Hfalse : (performDraw state env).1.1 = false) :
  (performDraw state env).1.2 = state /\
  localStorage (performDraw state env).2 = localStorage env /\
  (isDrawComplete state = true \/ length (participants state) < 2 ->
   world (performDraw state env).2 = world env).
Proof.
  destruct (performDraw_cases state env)
    as [[Hc Hrun]|[(Hc & Hlen & Hrun)|[(Hc & Hlen & w & Hgen & Hrun)
       |(Hc & Hlen & drawn & w & Hgen & Hrun)]]];
    rewrite Hrun in Hfalse |- *; simpl in *; try done.
  repeat split. intros [?|?]; [congruence | lia].
Qed.

Lemma performDraw_false_changes_nothing_witness :
  let state := mkAppState [mkParticipant "a" "Ada"] [] ∅ false setup None
                          true in
  let env := mkEnv (tape [0; 0]) []
                   (Storage.mkLocalStorage None None None None None) in
  (performDraw state env).1.1 = false /\
  (performDraw state env).1.2 = state /\
  localStorage (performDraw state env).2 = localStorage env.
Proof.
  intros state env.
  assert ((performDraw state env).1.1 = false) as Hfalse by reflexivity.
  split; [exact Hfalse|].
  destruct (performDraw_false_changes_nothing state env Hfalse)
    as (Hstate & Hstorage & _).
  split; [exact Hstate | exact Hstorage].
Defined.

(** X8. A draw that returns [true] was made once only, for at least two
    participants.  It leaves the participants, the revealed set, the
    selection and the sound setting as they were, marks the draw complete,
    moves to the select screen, and saves exactly the new state.  The new
    assignments list the participants as givers in their order, each with a
    receiver other than themselves, the receivers being a rearrangement of
    the ids; if the ids are pairwise distinct, [validateAssignments]
    accepts them. *)
Theorem performDraw_true_draws_validly
        (state state' : AppState) (env env' : Env)
        (Htrue : performDraw state env = (true, state', env')) :
  isDrawComplete state = false /\
  2 <= length (participants state) /\
  participants state' = participants state /\
  revealedParticipants state' = revealedParticipants state /\
  selectedParticipant state' = selectedParticipant state /\
  soundEnabled state' = soundEnabled state /\
  isDrawComplete state' = true /\
  currentScreen state' = select /\
  localStorage env' = localStorage (save state' env) /\
  giverId <$> assignments state' = id <$> participants state /\
  receiverId <$> assignments state' ≡ₚ id <$> participants state /\
  (forall a, a ∈ assignments state' -> giverId a <> receiverId a) /\
  (NoDup (id <$> participants state) ->
   validateAssignments (participants state') (assignments state') = true).
Proof. exact (performDraw_true_inv state state' env env' Htrue). Qed.

Lemma performDraw_true_draws_validly_witness :
  let state :=
    mkAppState [mkParticipant "a" "Ada"; mkParticipant "b" "Bob";
                mkParticipant "c" "Cy"] [] ∅ false setup None true in
  let env := mkEnv (tape []) []
                   (Storage.mkLocalStorage None None None None None) in
  (performDraw state env).1.1 = true /\
  assignments (performDraw state env).1.2 =
    [mkAssignment "a" "b"; mkAssignment "b" "c"; mkAssignment "c" "a"] /\
  validateAssignments (participants (performDraw state env).1.2)
                      (assignments (performDraw state env).1.2) = true.
Proof.
  intros state env.
  assert ((performDraw state env).1.1 = true) as Htrue
      by (vm_compute; reflexivity).
  split; [exact Htrue|]. split; [vm_compute; reflexivity|].
  destruct (performDraw state env) as [[b state'] env'] eqn:Hrun.
  simpl in Htrue. subst b.
  refine (proj2 (proj2 (proj2 (proj2 (proj2 (proj2 (proj2 (proj2 (proj2
    (proj2 (proj2 (proj2
      (performDraw_true_draws_validly state state' env env' Hrun))))))))))))
    _).
  compute_done.
Defined.


End StoreProperties.

Section ReloadProperties.
Import Store.

(** X10. Saving and reloading: when the saved draw is incomplete, or has
    no assignments, or passes [validateAssignments], [getInitialState]
    gives back the saved participants, assignments, revealed set, draw flag
    and sound setting, on the select screen if the draw is complete and on
    the setup screen otherwise, with nobody selected; the storage is left
    as saved. *)
Theorem getInitialState_restores_saved_state (state : AppState) (env : Env)
        (Hloadable : loadable state = true) :
  getInitialState (save state env) = (reloaded state, save state env).
Proof. by rewrite getInitialState_save, Hloadable. Qed.

Lemma getInitialState_restores_saved_state_witness :
  let state :=
    mkAppState [mkParticipant "a" "Ada"; mkParticipant "b" "Bob"]
               [mkAssignment "a" "b"; mkAssignment "b" "a"]
               {["b"]} true reveal (Some (mkParticipant "b" "Bob")) false in
  let env := mkEnv (tape []) []
                   (Storage.mkLocalStorage None None None None None) in
  loadable state = true /\
  getInitialState (save state env) =
    (mkAppState [mkParticipant "a" "Ada"; mkParticipant "b" "Bob"]
                [mkAssignment "a" "b"; mkAssignment "b" "a"]
                {["b"]} true select None false,
     save state env).
Proof.
  intros state env.
  assert (loadable state = true) as Hloadable by (vm_compute; reflexivity).
  split; [exact Hloadable|].
  exact (getInitialState_restores_saved_state state env Hloadable).
Defined.

(** X11. A completed draw survives a page reload: after [performDraw]
    returned [true] for participants with pairwise distinct ids,
    [getInitialState] restores the same participants and assignments with
    the draw marked complete, on the select screen, without touching the
    storage, and a new [performDraw] is refused. *)
Theorem drawn_assignments_survive_reload
        (state state' : AppState) (env env' : Env)
        (Hdistinct : NoDup (id <$> participants state))
        (Htrue : performDraw state env = (true, state', env')) :
  getInitialState env' = (reloaded state', env') /\
  participants (reloaded state') = participants state /\
  assignments (reloaded state') = assignments state' /\
  isDrawComplete (reloaded state') = true /\
  currentScreen (reloaded state') = select /\
  (performDraw (reloaded state') env').1.1 = false.
Proof.
  destruct (performDraw_true_inv state state' env env' Htrue)
    as (_ & _ & Hps & _ & _ & _ & Hdone & _ & _ & _ & _ & _ & Hvalid).
  specialize (Hvalid Hdistinct).
  assert (loadable state' = true) as Hloadable.
  { unfold loadable. rewrite Hvalid. apply orb_true_r. }
  destruct (performDraw_cases state env)
    as [[Hc Hrun]|[(Hc & Hlen & Hrun)|[(Hc & Hlen & w & Hgen & Hrun)
       |(Hc & Hlen & drawn & w & Hgen & Hrun)]]];
    rewrite Hrun in Htrue; try done.
  cbn zeta in Htrue. injection Htrue as Hst Henv.
  rewrite Hst in Henv. rewrite <- Henv.
  rewrite getInitialState_save, Hloadable.
  unfold reloaded, performDraw. simpl. rewrite Hdone. by repeat split.
Qed.

Lemma drawn_assignments_survive_reload_witness :
  let state :=
    mkAppState [mkParticipant "a" "Ada"; mkParticipant "b" "Bob";
                mkParticipant "c" "Cy"] [] ∅ false setup None true in
  let env := mkEnv (tape []) []
                   (Storage.mkLocalStorage None None None None None) in
  let state' := (performDraw state env).1.2 in
  let env' := (performDraw state env).2 in
  NoDup (id <$> participants state) /\
  performDraw state env = (true, state', env') /\
  getInitialState env' = (reloaded state', env') /\
  assignments (reloaded state') =
    [mkAssignment "a" "b"; mkAssignment "b" "c"; mkAssignment "c" "a"].
Proof.
  intros state env state' env'.
  assert (NoDup (id <$> participants state)) as Hdistinct by compute_done.
  assert (performDraw state env = (true, state', env')) as Htrue
      by (vm_compute; reflexivity).
  split; [exact Hdistinct|]. split; [exact Htrue|].
  destruct (drawn_assignments_survive_reload state state' env env'
              Hdistinct Htrue) as (Hreload & _ & Hasg & _).
  split; [exact Hreload|]. rewrite Hasg. vm_compute. reflexivity.
Defined.

(** X12. A stored draw that is marked complete and has assignments which
    [validateAssignments] rejects is discarded on load: the store starts
    from the empty state on the setup screen, a warning is written, all
    five records are removed from the storage, and the next load starts
    from the empty state again. *)
Theorem getInitialState_discards_invalid_draw
        (env : Env) (stored : list Participant) (edited : list Assignment)
        (Hparticipants :
           Storage.secretsanta_participants (localStorage env) = Some stored)
        (Hassignments :
           Storage.secretsanta_assignments (localStorage env) = Some edited)
        (Hcomplete :
           Storage.secretsanta_draw_complete (localStorage env) = Some true)
        (Hnonempty : edited <> [])
        (Hinvalid : validateAssignments stored edited = false) :
  let env' :=
    mkEnv (world env)
          (warned env ++ ["Invalid stored assignments, resetting..."])
          (Storage.mkLocalStorage None None None None None) in
  getInitialState env = (emptyState, env') /\
  getInitialState env' = (emptyState, env').
Proof.
  split; [|done].
  unfold getInitialState, Storage.loadState.
  rewrite Hparticipants, Hassignments, Hcomplete. simpl.
  rewrite Hinvalid. rewrite bool_decide_true; [done|].
  destruct edited; [done | simpl; lia].
Qed.

Lemma getInitialState_discards_invalid_draw_witness :
  let ps := [mkParticipant "a" "Ada"; mkParticipant "b" "Bob"] in
  let edited := [mkAssignment "a" "a"; mkAssignment "b" "a"] in
  let env := mkEnv (tape []) []
                   (Storage.mkLocalStorage (Some ps) (Some edited)
                                           (Some ["a"]) (Some true)
                                           (Some false)) in
  validateAssignments ps edited = false /\
  getInitialState env =
    (emptyState,
     mkEnv (tape []) ["Invalid stored assignments, resetting..."]
           (Storage.mkLocalStorage None None None None None)).
Proof.
  intros ps edited env.
  assert (validateAssignments ps edited = false) as Hinvalid
      by (vm_compute; reflexivity).
  split; [exact Hinvalid|].
  refine (proj1 (getInitialState_discards_invalid_draw env ps edited
                   eq_refl eq_refl eq_refl _ Hinvalid)).
  discriminate.
Defined.

(** X13. The check on load is skipped when the stored assignment list is
    empty or missing: a record that marks the draw complete is then taken
    at its word.  The store starts on the select screen with the draw
    complete and no assignments, so that [getAssignmentFor] finds nobody
    for anyone and [performDraw] is refused. *)
Theorem getInitialState_trusts_complete_draw_without_assignments
        (env : Env) (stored : list Participant)
        (Hparticipants :
           Storage.secretsanta_participants (localStorage env) = Some stored)
        (Hassignments :
           default [] (Storage.secretsanta_assignments (localStorage env))
           = [])
        (Hcomplete :
           Storage.secretsanta_draw_complete (localStorage env) = Some true) :
  let state := (getInitialState env).1 in
  (getInitialState env).2 = env /\
  participants state = stored /\
  assignments state = [] /\
  isDrawComplete state = true /\
  currentScreen state = select /\
  (forall participantId, getAssignmentFor participantId state = None) /\
  (forall env0, (performDraw state env0).1 = (false, state)).
Proof.
  unfold getInitialState, Storage.loadState.
  rewrite Hparticipants, Hcomplete. simpl. rewrite Hassignments. simpl.
  repeat split.
Qed.

Lemma getInitialState_trusts_complete_draw_without_assignments_witness :
  let ps := [mkParticipant "a" "Ada"; mkParticipant "b" "Bob"] in
  let env := mkEnv (tape []) []
                   (Storage.mkLocalStorage (Some ps) None None (Some true)
                                           None) in
  isDrawComplete (getInitialState env).1 = true /\
  getAssignmentFor "a" (getInitialState env).1 = None.
Proof.
  intros ps env.
  destruct (getInitialState_trusts_complete_draw_without_assignments
              env ps eq_refl eq_refl eq_refl)
    as (_ & _ & _ & Hdone & _ & Hnobody & _).
  split; [exact Hdone | exact (Hnobody "a")].
Defined.
End ReloadProperties.

(** [find] by a key that no two elements share. *)
Lemma NoDup_key_inj {A} (key : A -> string) (l : list A) x y :
  NoDup (key <$> l) -> x ∈ l -> y ∈ l -> key x = key y -> x = y.
Proof.
  intros Hnd (i & Hi)%list_elem_of_lookup_1 (j & Hj)%list_elem_of_lookup_1 Hkey.
  assert (i = j) as ->; [|congruence].
  apply (NoDup_lookup (key <$> l) i j (key x)); [done|..];
    rewrite list_lookup_fmap; [by rewrite Hi | by rewrite Hj, Hkey].
Qed.

Lemma find_by_key {A} (key : A -> string) (l : list A) x :
  NoDup (key <$> l) -> x ∈ l ->
  find (fun y => bool_decide (key y = key x)) l = Some x.
Proof.
  intros Hnd Hx.
  destruct (find _ l) as [y|] eqn:Hfind.
  - apply find_some in Hfind as [Hy%list_elem_of_In Hkey%bool_decide_eq_true].
    f_equal. by apply (NoDup_key_inj key l).
  - apply list_elem_of_In in Hx.
    pose proof (find_none _ _ Hfind x Hx) as Hkey. simpl in Hkey.
    by apply bool_decide_eq_false in Hkey.
Qed.

Section AssignmentLookup.
Import Store.

Lemma getAssignmentFor_Some_inv participantId state q :
  getAssignmentFor participantId state = Some q ->
  exists a, a ∈ assignments state /\ giverId a = participantId /\
            receiverId a = id q /\ q ∈ participants state.
Proof.
  unfold getAssignmentFor. intros Hq.
  destruct (find _ (assignments state)) as [a|] eqn:Ha; [|done].
  apply find_some in Ha as [Ha%list_elem_of_In Hg%bool_decide_eq_true].
  apply find_some in Hq as [Hq%list_elem_of_In Hr%bool_decide_eq_true].
  by exists a.
Qed.

Lemma getAssignmentFor_of_assignment state a q :
  validateAssignments (participants state) (assignments state) = true ->
  a ∈ assignments state -> q ∈ participants state ->
  id q = receiverId a ->
  getAssignmentFor (giverId a) state = Some q.
Proof.
  intros (Hnd & Hg & Hr & _)%validateAssignments_columns Ha Hq Hid.
  unfold getAssignmentFor.
  rewrite (find_by_key giverId) by (by rewrite ?Hg).
  rewrite <- Hid. by apply (find_by_key id).
Qed.

Lemma getAssignmentFor_valid_inv state :
  validateAssignments (participants state) (assignments state) = true ->
  (forall p, p ∈ participants state ->
     exists q, getAssignmentFor (id p) state = Some q /\
               q ∈ participants state /\ id q <> id p /\
               mkAssignment (id p) (id q) ∈ assignments state) /\
  (forall participantId,
     getAssignmentFor participantId state = None <->
     participantId ∉ id <$> participants state) /\
  (forall participantId1 participantId2 q,
     getAssignmentFor participantId1 state = Some q ->
     getAssignmentFor participantId2 state = Some q ->
     participantId1 = participantId2) /\
  (forall q, q ∈ participants state ->
     exists p, p ∈ participants state /\
               getAssignmentFor (id p) state = Some q).
Proof.
  intros Hvalid.
  pose proof (proj1 (validateAssignments_columns _ _) Hvalid)
    as (Hnd & Hg & Hr & Hself).
  assert (forall p, p ∈ participants state ->
     exists q, getAssignmentFor (id p) state = Some q /\
               q ∈ participants state /\ id q <> id p /\
               mkAssignment (id p) (id q) ∈ assignments state) as Hgives.
  { intros p Hp.
    assert (id p ∈ giverId <$> assignments state) as Hin
      by (rewrite Hg; by apply list_elem_of_fmap_2).
    apply list_elem_of_fmap in Hin as (a & Hpa & Ha).
    assert (receiverId a ∈ id <$> participants state) as Hin
      by (rewrite <- Hr; by apply list_elem_of_fmap_2).
    apply list_elem_of_fmap in Hin as (q & Hqa & Hq).
    exists q. rewrite Hpa.
    split; [by apply getAssignmentFor_of_assignment|].
    split; [done|]. split.
    - rewrite <- Hqa. intros Heq. by apply (Hself a).
    - rewrite <- Hqa. by destruct a. }
  split; [done|]. split; [|split].
  - intros participantId. split.
    + intros Hnone (p & -> & Hp)%list_elem_of_fmap.
      destruct (Hgives p Hp) as (q & Hq & _). congruence.
    + intros Hnot.
      destruct (getAssignmentFor participantId state) as [q|] eqn:Hq;
        [|done].
      apply getAssignmentFor_Some_inv in Hq as (a & Ha & <- & _).
      destruct Hnot. rewrite <- Hg. by apply list_elem_of_fmap_2.
  - intros pid1 pid2 q
           (a1 & Ha1 & <- & Hr1 & _)%getAssignmentFor_Some_inv
           (a2 & Ha2 & <- & Hr2 & _)%getAssignmentFor_Some_inv.
    f_equal. apply (NoDup_key_inj receiverId (assignments state));
      [by rewrite Hr|done..|congruence].
  - intros q Hq.
    assert (id q ∈ receiverId <$> assignments state) as Hin
      by (rewrite Hr; by apply list_elem_of_fmap_2).
    apply list_elem_of_fmap in Hin as (a & Hqa & Ha).
    assert (giverId a ∈ id <$> participants state) as Hin
      by (rewrite <- Hg; by apply list_elem_of_fmap_2).
    apply list_elem_of_fmap in Hin as (p & Hpa & Hp).
    exists p. split; [done|]. rewrite <- Hpa.
    by apply getAssignmentFor_of_assignment.
Qed.
End AssignmentLookup.

Section MatchProperties.
Import Store.

(** X14. In a store whose assignments pass [validateAssignments],
    [getAssignmentFor] is a derangement of the participants: for every
    participant it finds a participant with another id, to whom the
    assignments make them give; it answers [null] exactly for ids that
    belong to no participant; no two ids are given the same match; and
    every participant is the match of some participant. *)
Theorem getAssignmentFor_is_derangement (state : AppState)
        (Hvalid : validateAssignments (participants state)
                                      (assignments state) = true) :
  (forall p, p ∈ participants state ->
     exists q, getAssignmentFor (id p) state = Some q /\
               q ∈ participants state /\ id q <> id p /\
               mkAssignment (id p) (id q) ∈ assignments state) /\
  (forall participantId,
     getAssignmentFor participantId state = None <->
     participantId ∉ id <$> participants state) /\
  (forall participantId1 participantId2 q,
     getAssignmentFor participantId1 state = Some q ->
     getAssignmentFor participantId2 state = Some q ->
     participantId1 = participantId2) /\
  (forall q, q ∈ participants state ->
     exists p, p ∈ participants state /\
               getAssignmentFor (id p) state = Some q).
Proof. by apply getAssignmentFor_valid_inv. Qed.

Lemma getAssignmentFor_is_derangement_witness :
  let Ada := mkParticipant "a" "Ada" in
  let Bob := mkParticipant "b" "Bob" in
  let Cy := mkParticipant "c" "Cy" in
  let state :=
    mkAppState [Ada; Bob; Cy]
               [mkAssignment "c" "a"; mkAssignment "a" "b";
                mkAssignment "b" "c"]
               ∅ true select None true in
  validateAssignments (participants state) (assignments state) = true /\
  getAssignmentFor "a" state = Some Bob /\
  (getAssignmentFor "zed" state = None <->
   "zed" ∉ id <$> participants state).
Proof.
  intros Ada Bob Cy state.
  assert (validateAssignments (participants state) (assignments state)
          = true) as Hvalid by (vm_compute; reflexivity).
  split; [exact Hvalid|]. split; [vm_compute; reflexivity|].
  exact (proj1 (proj2 (getAssignmentFor_is_derangement state Hvalid)) "zed").
Defined.

(** X15. After a draw that returned [true] for participants with pairwise
    distinct ids, everybody has a match and is a match: [getAssignmentFor]
    gives each participant another participant, and each participant is
    given to exactly one. *)
Theorem performDraw_gives_everyone_a_match
        (state state' : AppState) (env env' : Env)
        (Hdistinct : NoDup (id <$> participants state))
        (Htrue : performDraw state env = (true, state', env')) :
  (forall p, p ∈ participants state ->
     exists q, getAssignmentFor (id p) state' = Some q /\
               q ∈ participants state /\ id q <> id p) /\
  (forall q, q ∈ participants state ->
     exists p, p ∈ participants state /\
               getAssignmentFor (id p) state' = Some q /\
               forall p', p' ∈ participants state ->
                          getAssignmentFor (id p') state' = Some q ->
                          p' = p).
Proof.
  destruct (performDraw_true_inv state state' env env' Htrue)
    as (_ & _ & Hps & _ & _ & _ & _ & _ & _ & _ & _ & _ & Hvalid).
  specialize (Hvalid Hdistinct).
  destruct (getAssignmentFor_valid_inv state' Hvalid)
    as (Hgives & _ & Hinj & Hsurj).
  rewrite Hps in Hgives, Hsurj. split.
  - intros p Hp. destruct (Hgives p Hp) as (q & Hq & Hin & Hne & _).
    by exists q.
  - intros q Hq. destruct (Hsurj q Hq) as (p & Hp & Hpq).
    exists p. split; [done|]. split; [done|].
    intros p' Hp' Hp'q.
    apply (NoDup_key_inj id (participants state)); try done.
    by apply (Hinj (id p') (id p) q).
Qed.

Lemma performDraw_gives_everyone_a_match_witness :
  let Ada := mkParticipant "a" "Ada" in
  let Bob := mkParticipant "b" "Bob" in
  let Cy := mkParticipant "c" "Cy" in
  let state := mkAppState [Ada; Bob; Cy] [] ∅ false setup None true in
  let env := mkEnv (tape [1; 0]) []
                   (Storage.mkLocalStorage None None None None None) in
  let state' := (performDraw state env).1.2 in
  NoDup (id <$> participants state) /\
  performDraw state env = (true, state', (performDraw state env).2) /\
  exists q, getAssignmentFor (id Ada) state' = Some q /\
            q ∈ participants state /\ id q <> id Ada.
Proof.
  intros Ada Bob Cy state env state'.
  assert (NoDup (id <$> participants state)) as Hdistinct by compute_done.
  assert (performDraw state env = (true, state', (performDraw state env).2))
    as Htrue by (vm_compute; reflexivity).
  split; [exact Hdistinct|]. split; [exact Htrue|].
  apply (proj1 (performDraw_gives_everyone_a_match
                  state state' env _ Hdistinct Htrue) Ada).
  compute_done.
Defined.
End MatchProperties.

Section ActionProperties.
Import Store.

(** X16. A match is shown once.  After [markAsRevealed] for a
    participant's id, [selectParticipant] refuses that participant and
    leaves the store as it is; the revealed set has only grown, and marking
    the same id again changes nothing.  The mark is saved: after a reload
    of a store whose draw passes the check on load, the participant is
    still revealed and still refused. *)
Theorem revealed_participant_is_refused
        (participant : Participant) (state : AppState) (env : Env) :
  let state1 := (markAsRevealed (id participant) state env).1 in
  let env1 := (markAsRevealed (id participant) state env).2 in
  isParticipantRevealed (id participant) state1 = true /\
  selectParticipant participant state1 = (false, state1) /\
  revealedParticipants state ⊆ revealedParticipants state1 /\
  markAsRevealed (id participant) state1 env1 = (state1, env1) /\
  (loadable state = true ->
   let state2 := (getInitialState env1).1 in
   isParticipantRevealed (id participant) state2 = true /\
   selectParticipant participant state2 = (false, state2)).
Proof.
  intros state1 env1.
  assert (id participant ∈ revealedParticipants state1) as Hin
      by (simpl; set_solver).
  split; [by apply bool_decide_eq_true|].
  split; [unfold selectParticipant; by rewrite bool_decide_true|].
  split; [simpl; set_solver|]. split.
  - unfold markAsRevealed, state1, env1. simpl.
    by replace ({[id participant]} ∪
                ({[id participant]} ∪ revealedParticipants state))
      with ({[id participant]} ∪ revealedParticipants state) by set_solver.
  - intros Hloadable state2. unfold state2, env1.
    change (markAsRevealed (id participant) state env).2
      with (save state1 env).
    rewrite getInitialState_save.
    change (loadable state1) with (loadable state). rewrite Hloadable.
    split; [by apply bool_decide_eq_true|].
    unfold selectParticipant. simpl. by rewrite bool_decide_true.
Qed.

Lemma revealed_participant_is_refused_witness :
  let Ada := mkParticipant "a" "Ada" in
  let state :=
    mkAppState [Ada; mkParticipant "b" "Bob"]
               [mkAssignment "a" "b"; mkAssignment "b" "a"]
               ∅ true spin (Some Ada) true in
  let env := mkEnv (tape []) []
                   (Storage.mkLocalStorage None None None None None) in
  let env1 := (markAsRevealed (id Ada) state env).2 in
  loadable state = true /\
  isParticipantRevealed (id Ada) (getInitialState env1).1 = true.
Proof.
  intros Ada state env env1.
  assert (loadable state = true) as Hloadable by (vm_compute; reflexivity).
  split; [exact Hloadable|].
  exact (proj1 (proj2 (proj2 (proj2 (proj2
           (revealed_participant_is_refused Ada state env)))) Hloadable)).
Defined.

(** X17. Once the draw is complete the participants and assignments are
    frozen for every action but [addParticipant] and [resetAll]:
    [removeParticipant] and [performDraw] do nothing to the store, and
    [selectParticipant], [markAsRevealed], [setScreen] and [toggleSound]
    change other fields only. *)
Theorem complete_draw_is_frozen
        (state : AppState) (env : Env) (removedId participantId : string)
        (participant : Participant) (screen : Screen)
        (Hcomplete : isDrawComplete state = true) :
  let same_draw state' :=
    participants state' = participants state /\
    assignments state' = assignments state /\
    isDrawComplete state' = true in
  removeParticipant removedId state env = (state, env) /\
  (performDraw state env).1 = (false, state) /\
  same_draw (selectParticipant participant state).2 /\
  same_draw (markAsRevealed participantId state env).1 /\
  same_draw (setScreen screen state) /\
  same_draw (toggleSound state env).1.
Proof.
  intros same_draw. unfold same_draw, removeParticipant, performDraw,
    selectParticipant.
  rewrite Hcomplete. simpl.
  repeat split; try done; by case_bool_decide.
Qed.

Lemma complete_draw_is_frozen_witness :
  let state :=
    mkAppState [mkParticipant "a" "Ada"; mkParticipant "b" "Bob"]
               [mkAssignment "a" "b"; mkAssignment "b" "a"]
               ∅ true select None true in
  let env := mkEnv (tape []) []
                   (Storage.mkLocalStorage None None None None None) in
  isDrawComplete state = true /\
  removeParticipant "a" state env = (state, env).
Proof.
  intros state env.
  assert (isDrawComplete state = true) as Hcomplete by reflexivity.
  split; [exact Hcomplete|].
  exact (proj1 (complete_draw_is_frozen state env "a" "b"
                  (mkParticipant "a" "Ada") setup Hcomplete)).
Defined.

(** X18. Before the draw, [removeParticipant] removes every participant
    with the given id and nobody else, keeps the others in their order,
    keeps pairwise distinct ids distinct, touches no other field, and saves
    the result, which a reload gives back. *)
Theorem removeParticipant_before_draw
        (removedId : string) (state : AppState) (env : Env)
        (Hopen : isDrawComplete state = false) :
  let state' := (removeParticipant removedId state env).1 in
  let env' := (removeParticipant removedId state env).2 in
  (forall p, p ∈ participants state' <->
             p ∈ participants state /\ id p <> removedId) /\
  participants state' `sublist_of` participants state /\
  (NoDup (id <$> participants state) ->
   NoDup (id <$> participants state')) /\
  state' = mkAppState (participants state') (assignments state)
                      (revealedParticipants state) false
                      (currentScreen state) (selectedParticipant state)
                      (soundEnabled state) /\
  env' = save state' env /\
  getInitialState env' = (reloaded state', env').
Proof.
  intros state' env'. unfold state', env', removeParticipant.
  rewrite Hopen. simpl.
  split; [intros p; rewrite list_elem_of_filter; tauto|].
  split; [apply sublist_filter|].
  split.
  { intros Hnd. eapply sublist_NoDup; [exact Hnd|].
    apply fmap_sublist, sublist_filter. }
  split; [done|]. split; [done|].
  by rewrite getInitialState_save.
Qed.

Lemma removeParticipant_before_draw_witness :
  let state :=
    mkAppState [mkParticipant "a" "Ada"; mkParticipant "b" "Bob";
                mkParticipant "c" "Cy"] [] ∅ false setup None true in
  let env := mkEnv (tape []) []
                   (Storage.mkLocalStorage None None None None None) in
  isDrawComplete state = false /\
  forall p, p ∈ participants (removeParticipant "b" state env).1 <->
            p ∈ participants state /\ id p <> "b".
Proof.
  intros state env.
  assert (isDrawComplete state = false) as Hopen by reflexivity.
  split; [exact Hopen|].
  exact (proj1 (removeParticipant_before_draw "b" state env Hopen)).
Defined.

(** X19. [resetAll] empties the store except for the sound setting and
    removes all five records; a reload then starts from the empty state on
    the setup screen with the sound on, whatever the setting was. *)
Theorem resetAll_then_reload (state : AppState) (env : Env) :
  let state' := (resetAll state env).1 in
  let env' := (resetAll state env).2 in
  state' = mkAppState [] [] ∅ false setup None (soundEnabled state) /\
  Storage.loadState (localStorage env') = None /\
  getInitialState env' = (emptyState, env') /\
  soundEnabled emptyState = true /\
  (forall participantId, getAssignmentFor participantId state' = None).
Proof. by repeat split. Qed.

(** X20. [addParticipant] either leaves store and storage alone (the
    trimmed name is empty, or equals some participant's name when both are
    lower-cased) or appends one participant with the trimmed name and the
    new id and saves.  Names that are pairwise different in lower case
    stay so.  This holds whatever [trim] and [toLowerCase] compute. *)
Theorem addParticipant_keeps_names_distinct
        (trim toLowerCase : string -> string) (newId newName : string)
        (state : AppState) (env : Env) :
  let state' :=
    (addParticipant trim toLowerCase newId newName state env).1 in
  let env' :=
    (addParticipant trim toLowerCase newId newName state env).2 in
  ((state' = state /\ env' = env /\
    (trim newName = "" \/
     exists p, p ∈ participants state /\
               toLowerCase (name p) = toLowerCase (trim newName)))
   \/
   (trim newName <> "" /\
    participants state' =
      participants state ++ [mkParticipant newId (trim newName)] /\
    assignments state' = assignments state /\
    revealedParticipants state' = revealedParticipants state /\
    isDrawComplete state' = isDrawComplete state /\
    env' = save state' env)) /\
  (NoDup ((fun p => toLowerCase (name p)) <$> participants state) ->
   NoDup ((fun p => toLowerCase (name p)) <$> participants state')).
Proof.
  intros state' env'. unfold state', env', addParticipant.
  case_bool_decide as Hblank; [split; [left; by repeat split; try left|done]|].
  destruct (existsb _ (participants state)) eqn:Hexists.
  - split; [|done]. left. repeat split. right.
    apply existsb_exists in Hexists
      as (p & Hp%list_elem_of_In & Heq%bool_decide_eq_true).
    by exists p.
  - simpl. split; [by right|].
    intros Hnd. rewrite fmap_app. apply NoDup_app. split; [done|].
    split; [|apply NoDup_singleton].
    intros x (p & -> & Hp)%list_elem_of_fmap Hin.
    apply list_elem_of_singleton in Hin. simpl in Hin.
    apply not_true_iff_false in Hexists. apply Hexists.
    apply existsb_exists. exists p.
    split; [by apply list_elem_of_In | by apply bool_decide_eq_true].
Qed.

Lemma addParticipant_keeps_names_distinct_witness :
  let lower := fun s : string => if bool_decide (s = "ADA") then "ada" else s in
  let state :=
    mkAppState [mkParticipant "1" "ada"] [] ∅ false setup None true in
  let env := mkEnv (tape []) []
                   (Storage.mkLocalStorage None None None None None) in
  NoDup ((fun p => lower (name p)) <$> participants state) /\
  NoDup ((fun p => lower (name p)) <$>
         participants (addParticipant (fun s => s) lower "2" "ADA"
                                      state env).1).
Proof.
  intros lower state env.
  assert (NoDup ((fun p => lower (name p)) <$> participants state))
    as Hnd by compute_done.
  split; [exact Hnd|].
  exact (proj2 (addParticipant_keeps_names_distinct (fun s => s) lower
                  "2" "ADA" state env) Hnd).
Defined.
End ActionProperties.

Section DrawInvariant.
Import Store.

Lemma act_sound_draw current action :
  sound_draw current.1 -> sound_draw (act current action).1.
Proof.
  destruct current as [state env]. intros [Hnd Hvalid].
  destruct action; simpl.
  - unfold removeParticipant.
    destruct (isDrawComplete state) eqn:Hc; [by split|].
    split; simpl; [|done].
    eapply sublist_NoDup; [exact Hnd|]. apply fmap_sublist, sublist_filter.
  - destruct (performDraw state env) as [[[] state'] env'] eqn:Hrun; simpl.
    + destruct (performDraw_true_inv state state' env env' Hrun)
        as (_ & _ & Hps & _ & _ & _ & _ & _ & _ & _ & _ & _ & Hv).
      split; [by rewrite Hps | auto].
    + assert ((performDraw state env).1.1 = false) as Hfalse
          by (by rewrite Hrun).
      destruct (performDraw_cases state env)
        as [[_ Hr]|[(_ & _ & Hr)|[(_ & _ & w & _ & Hr)
           |(_ & _ & drawn & w & _ & Hr)]]];
        rewrite Hr in Hrun; try done;
        injection Hrun as <- _; by split.
  - unfold selectParticipant. by case_bool_decide.
  - by split.
  - split; [constructor | done].
  - by split.
  - by split.
Qed.

(** X21. Whatever sequence of [removeParticipant], [performDraw],
    [selectParticipant], [markAsRevealed], [resetAll], [setScreen] and
    [toggleSound] is applied to a store with pairwise distinct ids whose
    draw, if complete, passes [validateAssignments], the ids stay distinct
    and a complete draw still passes. *)
Theorem complete_draw_stays_valid
        (actions : list Action) (state : AppState) (env : Env)
        (Hdistinct : NoDup (id <$> participants state))
        (Hvalid : isDrawComplete state = true ->
                  validateAssignments (participants state)
                                      (assignments state) = true) :
  let state' := (foldl act (state, env) actions).1 in
  NoDup (id <$> participants state') /\
  (isDrawComplete state' = true ->
   validateAssignments (participants state') (assignments state') = true).
Proof.
  assert (forall current, sound_draw current.1 ->
                          sound_draw (foldl act current actions).1) as Hrun.
  { induction actions as [|action actions IH]; intros current Hsound;
      [done|].
    simpl. apply IH. by apply act_sound_draw. }
  apply (Hrun (state, env)). by split.
Qed.

Lemma complete_draw_stays_valid_witness :
  let Cy := mkParticipant "c" "Cy" in
  let state :=
    mkAppState [mkParticipant "a" "Ada"; mkParticipant "b" "Bob"; Cy;
                mkParticipant "d" "Dee"] [] ∅ false setup None true in
  let env := mkEnv (tape []) []
                   (Storage.mkLocalStorage None None None None None) in
  let actions := [do_removeParticipant "d"; do_performDraw;
                  do_selectParticipant Cy; do_markAsRevealed "c";
                  do_removeParticipant "a"; do_performDraw] in
  let state' := (foldl act (state, env) actions).1 in
  NoDup (id <$> participants state) /\
  isDrawComplete state' = true /\
  validateAssignments (participants state') (assignments state') = true.
Proof.
  intros Cy state env actions state'.
  assert (NoDup (id <$> participants state)) as Hdistinct by compute_done.
  assert (isDrawComplete state = true ->
          validateAssignments (participants state) (assignments state)
          = true) as Hvalid by (simpl; discriminate).
  assert (isDrawComplete state' = true) as Hdone
      by (vm_compute; reflexivity).
  split; [exact Hdistinct|]. split; [exact Hdone|].
  exact (proj2 (complete_draw_stays_valid actions state env
                  Hdistinct Hvalid) Hdone).
Defined.

(** X22. [addParticipant] has no guard on the draw.  When it adds a
    participant to a store whose draw is complete and passes
    [validateAssignments] (with at least one assignment), the state it saves
    no longer passes the check on load, there being one participant more
    than assignments: the next reload discards the draw and starts from
    the empty state. *)
Theorem addParticipant_after_draw_is_discarded_on_reload
        (trim toLowerCase : string -> string) (newId newName : string)
        (state : AppState) (env : Env)
        (Hcomplete : isDrawComplete state = true)
        (Hdrawn : assignments state <> [])
        (Hvalid : validateAssignments (participants state)
                                      (assignments state) = true)
        (Hadded :
           participants (addParticipant trim toLowerCase newId newName
                                        state env).1
           <> participants state) :
  let env' := (addParticipant trim toLowerCase newId newName state env).2 in
  getInitialState env' =
    (emptyState,
     mkEnv (world env)
           (warned env ++ ["Invalid stored assignments, resetting..."])
           (Storage.mkLocalStorage None None None None None)).
Proof.
  intros env'. unfold env'. unfold addParticipant in *.
  case_bool_decide as Hblank; [done|].
  destruct (existsb _ (participants state)); [done|]. cbn [snd].
  rewrite getInitialState_save.
  set (state' := mkAppState _ _ _ _ _ _ _).
  assert (loadable state' = false) as ->; [|done].
  unfold loadable, state'. simpl. rewrite Hcomplete.
  rewrite bool_decide_true by (destruct (assignments state); [done|simpl; lia]).
  simpl. apply validateAssignments_true in Hvalid as (Hlen & _).
  unfold validateAssignments.
  rewrite bool_decide_false; [done|]. rewrite length_app. simpl. lia.
Qed.

Lemma addParticipant_after_draw_is_discarded_on_reload_witness :
  let state :=
    mkAppState [mkParticipant "a" "Ada"; mkParticipant "b" "Bob"]
               [mkAssignment "a" "b"; mkAssignment "b" "a"]
               ∅ true select None true in
  let env := mkEnv (tape []) []
                   (Storage.mkLocalStorage None None None None None) in
  let env' :=
    (addParticipant (fun s => s) (fun s => s) "c" "Cy" state env).2 in
  (getInitialState env').1 = emptyState.
Proof.
  intros state env env'.
  assert (isDrawComplete state = true) as Hcomplete by reflexivity.
  assert (assignments state <> []) as Hdrawn by discriminate.
  assert (validateAssignments (participants state) (assignments state)
          = true) as Hvalid by (vm_compute; reflexivity).
  assert (participants (addParticipant (fun s => s) (fun s => s) "c" "Cy"
                                       state env).1
          <> participants state) as Hadded by (vm_compute; discriminate).
  unfold env'.
  by rewrite (addParticipant_after_draw_is_discarded_on_reload
                (fun s => s) (fun s => s) "c" "Cy" state env
                Hcomplete Hdrawn Hvalid Hadded).
Defined.
End DrawInvariant.
